(** * HD derivation paths of filcloud/secp256k1: parsing, canonical text,
      JSON boundary and the key walk.

    The development embeds [ParseDerivationPath], [DerivationPath.String],
    [MarshalJSON]/[UnmarshalJSON] and [DeriveKey] together with the parts of
    the Go standard library they call ([strings.Split], [strings.TrimSpace],
    [strings.HasSuffix], [strings.TrimSuffix], [big.Int.SetString] with base
    0, the [%d] verb of [fmt]).  A Go string is a sequence of bytes and is
    modelled as [list ascii]; a [uint32] is a [Z] with the wrap-around written
    out; a [big.Int] is a [Z]. *)

From Stdlib Require Import ZArith Lia List Bool Ascii String.
Import ListNotations.

Local Open Scope Z_scope.

(** ** Go strings *)

Definition gostring := list ascii.

(** Go's [len] on strings. *)
Local Abbreviation len := (@List.length ascii).

(** A Go string literal. *)
Definition lit (s : string) : gostring := list_ascii_of_string s.

(** The numeric value of a byte, as Go compares bytes. *)
Definition code (c : ascii) : Z := Z.of_N (N_of_ascii c).

(** The byte of a numeric value below 256. *)
Definition byte_of (z : Z) : ascii := ascii_of_N (Z.to_N z).

Definition gostring_eqb (a b : gostring) : bool :=
  if list_eq_dec ascii_dec a b then true else false.

Module strings.

(** [strings.HasPrefix(s, prefix)]. *)
Fixpoint HasPrefix (s prefix : gostring) {struct prefix} : bool :=
  match prefix, s with
  | [], _ => true
  | _ :: _, [] => false
  | p :: prefix', c :: s' => Ascii.eqb c p && HasPrefix s' prefix'
  end.

(** [strings.HasSuffix(s, suffix)]:
    [len(s) >= len(suffix) && s[len(s)-len(suffix):] == suffix]. *)
Definition HasSuffix (s suffix : gostring) : bool :=
  (len suffix <=? len s)%nat
  && gostring_eqb (skipn (len s - len suffix) s) suffix.

(** [strings.TrimSuffix(s, suffix)]: [s] without the trailing [suffix], or
    [s] itself when it does not end with it. *)
Definition TrimSuffix (s suffix : gostring) : gostring :=
  if HasSuffix s suffix then firstn (len s - len suffix) s else s.

(** The loop of [genSplit(s, sep, 0, -1)] for a non-empty separator: the
    text before the leftmost occurrence of [sep] is a component, and the
    scan goes on after that occurrence.  [cur] holds the bytes of the
    current component in reverse, [skip] the bytes of a matched separator
    still to pass over. *)
Fixpoint split_loop (sep s cur : gostring) (skip : nat) : list gostring :=
  match s with
  | [] => [rev cur]
  | c :: s' =>
      match skip with
      | S k => split_loop sep s' cur k
      | O =>
          if HasPrefix s sep
          then rev cur :: split_loop sep s' [] (len sep - 1)
          else split_loop sep s' (c :: cur) 0
      end
  end.

(** [strings.Split(s, sep)] for a non-empty [sep].  With an empty separator
    Go splits after each UTF-8 sequence; no call of this package passes an
    empty separator, and the model answers with the single bytes there. *)
Definition Split (s sep : gostring) : list gostring :=
  match sep with
  | [] => map (fun c => [c]) s
  | _ :: _ => split_loop sep s [] 0
  end.

(** The UTF-8 encodings of the runes for which [unicode.IsSpace] holds:
    U+0009..U+000D, U+0020, U+0085, U+00A0, U+1680, U+2000..U+200A, U+2028,
    U+2029, U+202F, U+205F, U+3000. *)
Definition spaceRunes : list gostring :=
  map (map byte_of)
    [ [9]; [10]; [11]; [12]; [13]; [32];
      [194; 133]; [194; 160];
      [225; 154; 128];
      [226; 128; 128]; [226; 128; 129]; [226; 128; 130]; [226; 128; 131];
      [226; 128; 132]; [226; 128; 133]; [226; 128; 134]; [226; 128; 135];
      [226; 128; 136]; [226; 128; 137]; [226; 128; 138];
      [226; 128; 168]; [226; 128; 169]; [226; 128; 175];
      [226; 129; 159];
      [227; 128; 128] ].

(** Width in bytes of the white-space rune [s] starts with, if any. *)
Definition leadingSpace (s : gostring) : option nat :=
  option_map len (find (HasPrefix s) spaceRunes).

(** Width in bytes of the white-space rune [s] ends with, if any. *)
Definition trailingSpace (s : gostring) : option nat :=
  option_map len (find (HasSuffix s) spaceRunes).

Fixpoint trimLeft (fuel : nat) (s : gostring) : gostring :=
  match fuel with
  | O => s
  | S fuel' =>
      match leadingSpace s with
      | Some w => trimLeft fuel' (skipn w s)
      | None => s
      end
  end.

Fixpoint trimRight (fuel : nat) (s : gostring) : gostring :=
  match fuel with
  | O => s
  | S fuel' =>
      match trailingSpace s with
      | Some w => trimRight fuel' (firstn (len s - w) s)
      | None => s
      end
  end.

(** [strings.TrimSpace(s)]: [s] without its leading and trailing white
    space.  Every round removes at least one byte, so [len s] rounds are
    enough on either side. *)
Definition TrimSpace (s : gostring) : gostring :=
  let s1 := trimLeft (len s) s in
  trimRight (len s1) s1.

End strings.

(** ** math/big: [Int.SetString]

    The scanner is the one of the current math/big (Go 1.13 and later),
    which besides [0x] and the octal [0] knows the prefixes [0b] and [0o] and
    lets an underscore separate digits when the base is 0. *)

Module big.

Definition MaxBase : Z := 62.
Definition maxBaseSmall : Z := 36.

(** The digit value [d1] that [nat.scan] gives a byte in base [b]; a byte
    that is no digit gets [MaxBase + 1]. *)
Definition digitVal (b : Z) (ch : ascii) : Z :=
  let c := code ch in
  if (48 <=? c) && (c <=? 57) then c - 48
  else if (97 <=? c) && (c <=? 122) then c - 97 + 10
  else if (65 <=? c) && (c <=? 90) then
    (if b <=? maxBaseSmall then c - 65 + 10 else c - 65 + maxBaseSmall)
  else MaxBase + 1.

(** The local variables of [nat.scan] that its digit loop updates: [prev]
    is the rune ['_'], ['0'] (a digit) or ['.'] (anything else). *)
Record scanState := mkScan {
  prev : Z;
  invalSep : bool;
  count : Z;
  abs : Z
}.

(** The digit loop of [nat.scan] (no fraction: [fracOk] is false for an
    [Int]).  It returns the state at its end and the bytes left unread: none
    when the input ran out, the offending byte and what follows it when the
    loop broke on a byte that is no digit of base [b]. *)
Fixpoint scan_digits (base b : Z) (s : gostring) (st : scanState)
  : scanState * gostring :=
  match s with
  | [] => (st, [])
  | ch :: s' =>
      if (code ch =? 95) && (base =? 0) then
        scan_digits base b s'
          (mkScan 95 (invalSep st || negb (prev st =? 48)) (count st) (abs st))
      else
        let d1 := digitVal b ch in
        if b <=? d1 then (st, s)
        else scan_digits base b s'
               (mkScan 48 (invalSep st) (count st + 1) (abs st * b + d1))
  end.

(** The end of [nat.scan]: a misplaced separator and a number without digits
    are errors; an octal prefix [0] followed by no digit is decimal 0. *)
Definition scan_finish (prefix : Z) (r : scanState * gostring)
  : option Z * gostring :=
  let '(st, rest) := r in
  let errSep := invalSep st || (prev st =? 95) in
  if count st =? 0 then
    if prefix =? 48 then ((if errSep then None else Some 0), rest)
    else (None, rest)
  else ((if errSep then None else Some (abs st)), rest).

(** [nat.scan(r, base, false)]: the magnitude read from [s], or [None] on an
    error, and the unread rest.  With [base = 0] the prefix chooses the
    base: [0b]/[0B] 2, [0o]/[0O] 8, [0x]/[0X] 16, a [0] followed by anything
    else 8, otherwise 10. *)
Definition scan_nat (s : gostring) (base : Z) : option Z * gostring :=
  if base =? 0 then
    match s with
    | ch :: s1 =>
        if code ch =? 48 then
          match s1 with
          | [] => scan_finish 0 (mkScan 48 false 1 0, [])
          | ch2 :: s2 =>
              let c := code ch2 in
              if (c =? 98) || (c =? 66) then
                scan_finish 98 (scan_digits base 2 s2 (mkScan 48 false 0 0))
              else if (c =? 111) || (c =? 79) then
                scan_finish 111 (scan_digits base 8 s2 (mkScan 48 false 0 0))
              else if (c =? 120) || (c =? 88) then
                scan_finish 120 (scan_digits base 16 s2 (mkScan 48 false 0 0))
              else
                scan_finish 48 (scan_digits base 8 s1 (mkScan 48 false 0 0))
          end
        else scan_finish 0 (scan_digits base 10 s (mkScan 46 false 0 0))
    | [] => scan_finish 0 (mkScan 46 false 0 0, [])
    end
  else scan_finish 0 (scan_digits base base s (mkScan 46 false 0 0)).

(** [Int.SetString(s, base)] for [base] 0 or between 2 and [MaxBase]
    (Go panics on another base; the package passes 0): an optional sign,
    then the magnitude, and the whole of [s] must have been read.  The
    result is the integer, [None] when Go returns [ok = false]. *)
Definition SetString (s : gostring) (base : Z) : option Z :=
  match s with
  | [] => None
  | ch :: s' =>
      let neg := code ch =? 45 in
      let body := if neg || (code ch =? 43) then s' else s in
      match scan_nat body base with
      | (Some a, []) => Some (if neg then - a else a)
      | _ => None
      end
  end.

(** [x.Sign()]. *)
Definition Sign (x : Z) : Z := Z.sgn x.

(** [x.Cmp(y)]. *)
Definition Cmp (x y : Z) : Z :=
  match x ?= y with Lt => -1 | Eq => 0 | Gt => 1 end.

(** [x.Uint64()]: the low 64 bits of the magnitude. *)
Definition Uint64 (x : Z) : Z := Z.abs x mod 2 ^ 64.

End big.

(** ** fmt: the verbs the package uses *)

Module fmt.

(** The digit loop of the integer formatter: the decimal digits of [u],
    least significant first, pushed in front of [buf]. *)
Fixpoint fmt_digits (fuel : nat) (u : Z) (buf : gostring) : gostring :=
  match fuel with
  | O => buf
  | S fuel' =>
      if 10 <=? u
      then fmt_digits fuel' (u / 10) (byte_of (48 + u mod 10) :: buf)
      else byte_of (48 + u) :: buf
  end.

(** [%d] of an integer and [%v] of a [big.Int]: the decimal digits, with a
    minus sign in front of a negative number.  A number [u] has at most
    [log2 u + 1] decimal digits. *)
Definition fmt_d (n : Z) : gostring :=
  let u := Z.abs n in
  let digits := fmt_digits (S (Z.to_nat (Z.log2 u))) u [] in
  if n <? 0 then lit "-" ++ digits else digits.

End fmt.

(** ** The derivation path *)

(** [uint32(z)]: conversion with wrap-around. *)
Definition uint32 (z : Z) : Z := z mod 2 ^ 32.

Definition MaxUint32 : Z := 4294967295.

Definition DefaultPurpose : Z := 44.

(** [type DerivationPath []uint32].  The nil slice is the empty list. *)
Definition DerivationPath := list Z.

(** The errors of [ParseDerivationPath], one constructor per [errors.New]
    or [fmt.Errorf] of the source with the values it formats. *)
Inductive PathError :=
| EmptyPath
| AmbiguousPath
| MissingBasePath
| InvalidComponent (component : gostring)
| ComponentOutOfRange (bigval max : Z) (hardened : bool).

(** The text of an error, as the source builds it. *)
Definition PathError_Error (e : PathError) : gostring :=
  match e with
  | EmptyPath => lit "empty derivation path"
  | AmbiguousPath =>
      lit "ambiguous path: use 'm/' prefix for absolute paths, or no leading '/' for relative ones"
  | MissingBasePath => lit "base path must be provided for relative path"
  | InvalidComponent component => lit "invalid component: " ++ component
  | ComponentOutOfRange bigval max false =>
      lit "component " ++ fmt.fmt_d bigval
        ++ lit " out of allowed range [0, " ++ fmt.fmt_d max ++ lit "]"
  | ComponentOutOfRange bigval max true =>
      lit "component " ++ fmt.fmt_d bigval
        ++ lit " out of allowed hardened range [0, " ++ fmt.fmt_d max ++ lit "]"
  end.

(** The hardened test of the loop body: a trailing apostrophe sets the
    offset [0x80000000] and is cut off, and the rest is trimmed again. *)
Definition hardened_split (component : gostring) : Z * gostring :=
  if strings.HasSuffix component (lit "'")
  then (2147483648,
        strings.TrimSpace (strings.TrimSuffix component (lit "'")))
  else (0, component).

(** The body of the loop over the components up to the range check: the
    offset [value] (0 or [0x80000000]) and the integer [bigval] read from the
    text, or the error the body returns. *)
Definition parseComponent (component : gostring) : (Z * Z) + PathError :=
  let component := strings.TrimSpace component in
  let '(value, component) := hardened_split component in
  match big.SetString component 0 with
  | None => inr (InvalidComponent component)
  | Some bigval =>
      let max := uint32 (MaxUint32 - value) in
      if (big.Sign bigval <? 0) || (big.Cmp bigval max >? 0)
      then inr (ComponentOutOfRange bigval max (negb (value =? 0)))
      else inl (value, bigval)
  end.

(** The loop over the components: [value += uint32(bigval.Uint64())] and
    [result = append(result, value)], or [nil] and the first error. *)
Fixpoint parse_loop (components : list gostring) (result : DerivationPath)
  : DerivationPath * option PathError :=
  match components with
  | [] => (result, None)
  | component :: rest =>
      match parseComponent component with
      | inr err => ([], Some err)
      | inl (value, bigval) =>
          let value := uint32 (value + uint32 (big.Uint64 bigval)) in
          parse_loop rest (result ++ [value])
      end
  end.

(** The four cases of the [switch] on the components, in its order. *)
Inductive PathCase := NoComponents | Ambiguous | Absolute | Relative.

Definition switch_case (components : list gostring) : PathCase :=
  match components with
  | [] => NoComponents
  | c0 :: _ =>
      if gostring_eqb (strings.TrimSpace c0) (lit "") then Ambiguous
      else if gostring_eqb (strings.TrimSpace c0) (lit "m") then Absolute
      else Relative
  end.

(** What follows the [switch]: no component left is an error, otherwise
    the loop runs. *)
Definition parse_remaining (components : list gostring)
    (result : DerivationPath) : DerivationPath * option PathError :=
  if (List.length components =? 0)%nat then ([], Some EmptyPath)
  else parse_loop components result.

(** [ParseDerivationPath(path, base...)]: the pair Go returns, the path
    ([nil] with an error) and the error ([None] for [nil]).  [base] is the
    variadic argument, of which only [base[0]] is read. *)
Definition ParseDerivationPath (path : gostring) (base : list DerivationPath)
  : DerivationPath * option PathError :=
  let components := strings.Split path (lit "/") in
  match switch_case components with
  | NoComponents => ([], Some EmptyPath)
  | Ambiguous => ([], Some AmbiguousPath)
  | Absolute => parse_remaining (tl components) []
  | Relative =>
      match base with
      | base0 :: _ => parse_remaining components ([] ++ base0)
      | [] => ([], Some MissingBasePath)
      end
  end.

(** [(path DerivationPath) String()]. *)
Definition DerivationPath_String (path : DerivationPath) : gostring :=
  fold_left
    (fun result component =>
       let hardened := 2147483648 <=? component in
       let component :=
         if hardened then uint32 (component - 2147483648) else component in
       let result := result ++ lit "/" ++ fmt.fmt_d component in
       if hardened then result ++ lit "'" else result)
    path (lit "m").

(** The elements of a [DerivationPath] are [uint32] values. *)
Definition is_uint32 (z : Z) : Prop := 0 <= z < 2 ^ 32.
Definition uint32_path (path : DerivationPath) : Prop := Forall is_uint32 path.

(** ** The JSON boundary *)

(** The two calls of encoding/json the package makes, both on a Go string:
    [json.Marshal(s)] and [json.Unmarshal(b, &dp)] with [dp] a string
    variable that starts empty.  [Unmarshal_string] gives the content of
    [dp] after the call, or the error. *)
Record JSONCodec := {
  jsonError : Type;
  Marshal_string : gostring -> gostring;
  Unmarshal_string : gostring -> gostring + jsonError
}.

(** The bytes of a canonical path text: [m], [/], the apostrophe and the
    decimal digits.  None of them is escaped in a JSON string. *)
Definition canonical_byte (c : ascii) : bool :=
  let n := code c in
  (n =? 109) || (n =? 47) || (n =? 39) || ((48 <=? n) && (n <=? 57)).

Definition quote_byte : ascii := byte_of 34.

(** What encoding/json does with a text of such bytes: marshalling puts it
    between double quotes unchanged, and unmarshalling that gives it back. *)
Definition json_quotes_canonical (J : JSONCodec) : Prop :=
  forall s, forallb canonical_byte s = true ->
    Marshal_string J s = quote_byte :: s ++ [quote_byte]
    /\ Unmarshal_string J (quote_byte :: s ++ [quote_byte]) = inl s.

(** The error of [UnmarshalJSON]: the one of [json.Unmarshal] or the one of
    [ParseDerivationPath]. *)
Inductive UnmarshalError (J : JSONCodec) :=
| JSONError (e : jsonError J)
| ParseError (e : PathError).
Arguments JSONError {J} e.
Arguments ParseError {J} e.

Definition lift_parse {J : JSONCodec}
    (r : DerivationPath * option PathError)
  : DerivationPath * option (UnmarshalError J) :=
  (fst r, option_map ParseError (snd r)).

(** [(path DerivationPath) MarshalJSON()]. *)
Definition DerivationPath_MarshalJSON (J : JSONCodec) (path : DerivationPath)
  : gostring :=
  Marshal_string J (DerivationPath_String path).

(** [(path *DerivationPath) UnmarshalJSON(b)]: the value of [*path] after
    the call, which a JSON error leaves as it was and the parse always
    assigns, and the error returned. *)
Definition DerivationPath_UnmarshalJSON (J : JSONCodec)
    (path : DerivationPath) (b : gostring)
  : DerivationPath * option (UnmarshalError J) :=
  match Unmarshal_string J b with
  | inr err => (path, Some (JSONError err))
  | inl dp => lift_parse (ParseDerivationPath dp [])
  end.

(** A codec for the JSON texts the package itself writes: a string literal
    without escape sequences.  It quotes a text of bytes that need no
    escape, and reads back such a literal; on any other input it reports an
    error, where encoding/json knows more (escapes, [null], white space). *)
Module plain_json.

Definition plain_byte (c : ascii) : bool :=
  let n := code c in
  (32 <=? n) && (n <? 127) && negb (n =? 34) && negb (n =? 92)
  && negb (n =? 60) && negb (n =? 62) && negb (n =? 38).

Inductive error := SyntaxError | Unsupported.

Definition Marshal (s : gostring) : gostring := quote_byte :: s ++ [quote_byte].

Definition Unmarshal (b : gostring) : gostring + error :=
  match b with
  | q :: rest =>
      if (code q =? 34) && (1 <=? len rest)%nat
         && (code (last rest q) =? 34)
      then
        let body := removelast rest in
        if forallb plain_byte body then inl body else inr Unsupported
      else inr SyntaxError
  | [] => inr SyntaxError
  end.

Definition codec : JSONCodec :=
  {| jsonError := error; Marshal_string := Marshal; Unmarshal_string := Unmarshal |}.

End plain_json.

(** ** The key walk *)

Section KeyChain.

(** The collaborator: [hdkeychain.ExtendedKey], the errors of its [Child]
    and that single derivation step. *)
Context {hdkey hderror : Type}.
Variable hdkeychain_Child : hdkey -> Z -> hdkey + hderror.

(** [type ExtendedKey struct { hdkeychain.ExtendedKey }]. *)
Record ExtendedKey := { embedded : hdkey }.

(** A computation that calls the collaborator: it threads the log of the
    calls made so far, latest last. *)
Definition Calls (A : Type) : Type := list (hdkey * Z) -> A * list (hdkey * Z).

Definition ret {A} (a : A) : Calls A := fun log => (a, log).

Definition bind {A B} (m : Calls A) (f : A -> Calls B) : Calls B :=
  fun log => let '(a, log') := m log in f a log'.

(** [(k *ExtendedKey) Child(i)]: one call of the collaborator, wrapped.  Go
    returns the key with a [nil] error or [nil] with the error. *)
Definition ExtendedKey_Child (k : ExtendedKey) (i : Z)
  : Calls (ExtendedKey + hderror) :=
  fun log =>
    let log := log ++ [(embedded k, i)] in
    match hdkeychain_Child (embedded k) i with
    | inr err => (inr err, log)
    | inl key => (inl {| embedded := key |}, log)
    end.

(** The loop of [DeriveKey] from the key [key] over the indices left. *)
Fixpoint DeriveKey_loop (key : ExtendedKey) (path : DerivationPath)
  : Calls (ExtendedKey + hderror) :=
  match path with
  | [] => ret (inl key)
  | val :: rest =>
      bind (ExtendedKey_Child key val) (fun r =>
        match r with
        | inr err => ret (inr err)
        | inl key' => DeriveKey_loop key' rest
        end)
  end.

(** [DeriveKey(master, path)] for a master key that is not [nil]. *)
Definition DeriveKey (master : ExtendedKey) (path : DerivationPath)
  : Calls (ExtendedKey + hderror) :=
  DeriveKey_loop master path.

(** The walk in the words of the design: a left fold of the single step
    over the indices that stops at the first failure.  It gives the key or
    the error, and the number of steps taken. *)
Fixpoint fold_fail_fast (key : hdkey) (path : DerivationPath) (steps : nat)
  : (hdkey + hderror) * nat :=
  match path with
  | [] => (inl key, steps)
  | i :: rest =>
      match hdkeychain_Child key i with
      | inl key' => fold_fail_fast key' rest (S steps)
      | inr err => (inr err, S steps)
      end
  end.

End KeyChain.

Arguments ExtendedKey : clear implicits.

(** ** Vocabulary of the statements *)

Definition no_slash (s : gostring) : Prop := Forall (fun c => code c <> 47) s.

(** Printable bytes other than the blank: none of them starts or ends the
    encoding of a white-space rune. *)
Definition graphicb (c : ascii) : bool := (33 <=? code c) && (code c <=? 126).

(** The value of a digit of an integer literal, in the words of the
    design: decimal digits and the letters [a]-[f], [A]-[F]. *)
Definition digit_of (c : ascii) : option Z :=
  let n := code c in
  if (48 <=? n) && (n <=? 57) then Some (n - 48)
  else if (97 <=? n) && (n <=? 102) then Some (n - 87)
  else if (65 <=? n) && (n <=? 70) then Some (n - 55)
  else None.

(** [c] is a digit of base [b]. *)
Definition digit_in (b : Z) (c : ascii) : bool :=
  match digit_of c with Some d => d <? b | None => false end.

(** The number a digit string writes in base [b], continuing from [acc]. *)
Definition literal_value (b : Z) (ds : gostring) (acc : Z) : Z :=
  fold_left
    (fun a c => a * b + match digit_of c with Some d => d | None => 0 end)
    ds acc.

(** [ds] is the decimal numeral of [u]: digits only, at least one, and no
    leading zero except for the numeral [0]. *)
Definition decimal_of (ds : gostring) (u : Z) : Prop :=
  forallb (digit_in 10) ds = true
  /\ literal_value 10 ds 0 = u
  /\ match ds with
     | [] => False
     | c :: r => code c = 48 -> r = []
     end.

(** The canonical text of one index, as [String] writes it after the
    slash. *)
Definition component_text (c : Z) : gostring :=
  if 2147483648 <=? c
  then fmt.fmt_d (uint32 (c - 2147483648)) ++ lit "'"
  else fmt.fmt_d c.

(** The components the loop of [ParseDerivationPath] runs over: all of
    them, without the leading [m] of an absolute path. *)
Definition looped_components (path : gostring) : list gostring :=
  let components := strings.Split path (lit "/") in
  match switch_case components with
  | Absolute => tl components
  | _ => components
  end.

(** The result of the fold as [DeriveKey] returns it. *)
Definition wrap_key {hdkey hderror : Type} (r : hdkey + hderror)
  : ExtendedKey hdkey + hderror :=
  match r with
  | inl key => inl {| embedded := key |}
  | inr err => inr err
  end.

(** A collaborator for a test of the walk: keys count the steps taken, and
    the step fails on the index 2. *)
Definition stub_Child (key : nat) (i : Z) : nat + gostring :=
  if i =? 2 then inr (lit "stub failure") else inl (S key).

(** ** The rest of the key chain adapter *)

Section KeyChainAdapter.

(** The other capabilities of the collaborator that the adapter passes on:
    building a master key from a seed and network parameters, reading a key
    from its serialized text and writing that text. *)
Context {hdkey hderror params : Type}.
Variable hdkeychain_NewMaster : gostring -> params -> hdkey + hderror.
Variable hdkeychain_NewKeyFromString : gostring -> hdkey + hderror.
Variable hdkeychain_String : hdkey -> gostring.

(** [NewMaster(seed, net)]. *)
Definition NewMaster (seed : gostring) (net : params)
  : ExtendedKey hdkey + hderror :=
  match hdkeychain_NewMaster seed net with
  | inr err => inr err
  | inl k => inl {| embedded := k |}
  end.

(** [NewKeyFromString(key)]. *)
Definition NewKeyFromString (key : gostring) : ExtendedKey hdkey + hderror :=
  match hdkeychain_NewKeyFromString key with
  | inr err => inr err
  | inl k => inl {| embedded := k |}
  end.

(** The error of the key's [UnmarshalJSON]: the one of [json.Unmarshal] or
    the one of [NewKeyFromString]. *)
Inductive KeyUnmarshalError (J : JSONCodec) :=
| KeyJSONError (e : jsonError J)
| KeyStringError (e : hderror).

(** [(k *ExtendedKey) MarshalJSON()]: the promoted [String] of the embedded
    key, marshalled. *)
Definition ExtendedKey_MarshalJSON (J : JSONCodec) (k : ExtendedKey hdkey)
  : gostring :=
  Marshal_string J (hdkeychain_String (embedded k)).

(** [(k *ExtendedKey) UnmarshalJSON(b)]: the value of [*k] after the call,
    assigned only when both steps succeed, and the error returned. *)
Definition ExtendedKey_UnmarshalJSON (J : JSONCodec) (k : ExtendedKey hdkey)
    (b : gostring) : ExtendedKey hdkey * option (KeyUnmarshalError J) :=
  match Unmarshal_string J b with
  | inr err => (k, Some (KeyJSONError J err))
  | inl s =>
      match NewKeyFromString s with
      | inr err => (k, Some (KeyStringError J err))
      | inl key => (key, None)
      end
  end.

End KeyChainAdapter.

(** A collaborator for a test of the JSON boundary of keys: a key is a
    number, its serialized text the decimal numeral. *)
Definition stub_String (k : Z) : gostring := fmt.fmt_d k.

Definition stub_NewKeyFromString (s : gostring) : Z + gostring :=
  match big.SetString s 10 with
  | Some k => inl k
  | None => inr (lit "stub: malformed key")
  end.

(** ** Further vocabulary *)


(** The component [component] is accepted and gives the index [i]. *)
Definition component_index (component : gostring) (i : Z) : Prop :=
  exists value bigval,
    parseComponent component = inl (value, bigval) /\ i = value + bigval.

(** The component passes the loop body. *)
Definition accepted (component : gostring) : Prop :=
  exists x, parseComponent component = inl x.

(** What [String] writes for one index, read off its bits: the low 31 bits
    in decimal, and an apostrophe when bit 31 is set. *)
Definition index_text (c : Z) : gostring :=
  fmt.fmt_d (Z.land c 0x7FFFFFFF)
  ++ (if Z.testbit c 31 then lit "'" else []).

(** * Properties *)

(** ** Worked examples *)

Example Parse_bip44 :
  ParseDerivationPath (lit "m/44'/60'/0'/0/0") []
  = ([0x8000002C; 0x8000003C; 0x80000000; 0; 0], None).
Proof. reflexivity. Qed.

Example String_bip44 :
  DerivationPath_String [0x8000002C; 0x8000003C; 0x80000000; 0; 0]
  = lit "m/44'/60'/0'/0/0".
Proof. reflexivity. Qed.

Example Parse_blanks :
  ParseDerivationPath (lit " m / 44 ' / 0x3c' /017 ") []
  = ([0x8000002C; 0x8000003C; 15], None).
Proof. reflexivity. Qed.

Example Parse_relative_no_base :
  ParseDerivationPath (lit "44'/60'") [] = ([], Some MissingBasePath).
Proof. reflexivity. Qed.

Example Parse_negative :
  ParseDerivationPath (lit "m/-1'") []
  = ([], Some (ComponentOutOfRange (-1) 0x7FFFFFFF true)).
Proof. reflexivity. Qed.

Example Error_text :
  PathError_Error (ComponentOutOfRange 4294967296 0xFFFFFFFF false)
  = lit "component 4294967296 out of allowed range [0, 4294967295]".
Proof. reflexivity. Qed.

Example Split_empty : strings.Split (lit "") (lit "/") = [lit ""].
Proof. reflexivity. Qed.

(** ** Bytes *)

Lemma code_range (c : ascii) : 0 <= code c < 256.
Proof.
  unfold code. pose proof (N_ascii_bounded c). lia.
Qed.

Lemma code_byte_of (z : Z) : 0 <= z < 256 -> code (byte_of z) = z.
Proof.
  intros Hz. unfold code, byte_of.
  rewrite N_ascii_embedding by lia. lia.
Qed.

Lemma code_inj (a b : ascii) : code a = code b -> a = b.
Proof.
  unfold code. intros H.
  rewrite <- (ascii_N_embedding a), <- (ascii_N_embedding b).
  f_equal. lia.
Qed.

Lemma eqb_code (a b : ascii) : Ascii.eqb a b = (code a =? code b).
Proof.
  destruct (Ascii.eqb_spec a b) as [->|Hne].
  - symmetry. apply Z.eqb_refl.
  - symmetry. apply Z.eqb_neq. intros H. apply Hne, code_inj, H.
Qed.

Lemma gostring_eqb_eq (a b : gostring) : gostring_eqb a b = true <-> a = b.
Proof.
  unfold gostring_eqb. destruct (list_eq_dec ascii_dec a b); split; congruence.
Qed.

Lemma gostring_eqb_refl (a : gostring) : gostring_eqb a a = true.
Proof. apply gostring_eqb_eq. reflexivity. Qed.

(** ** strings *)

Lemma HasSuffix_iff (s suffix : gostring) :
  strings.HasSuffix s suffix = true <-> exists a, s = a ++ suffix.
Proof.
  unfold strings.HasSuffix. rewrite andb_true_iff, Nat.leb_le, gostring_eqb_eq.
  split.
  - intros [Hle Heq].
    exists (firstn (len s - len suffix) s).
    rewrite <- Heq at 2. symmetry. apply firstn_skipn.
  - intros [a ->]. rewrite length_app. split; [lia|].
    replace (len a + len suffix - len suffix)%nat with (len a + 0)%nat by lia.
    rewrite skipn_app, Nat.add_0_r, skipn_all.
    replace (len a - len a)%nat with 0%nat by lia. reflexivity.
Qed.

Lemma HasSuffix_app (a suffix : gostring) :
  strings.HasSuffix (a ++ suffix) suffix = true.
Proof. apply HasSuffix_iff. exists a. reflexivity. Qed.

Lemma TrimSuffix_app (a suffix : gostring) :
  strings.TrimSuffix (a ++ suffix) suffix = a.
Proof.
  unfold strings.TrimSuffix. rewrite HasSuffix_app, length_app.
  replace (len a + len suffix - len suffix)%nat with (len a + 0)%nat by lia.
  rewrite firstn_app, Nat.add_0_r, firstn_all.
  replace (len a - len a)%nat with 0%nat by lia.
  simpl. apply app_nil_r.
Qed.

(** A string whose last byte is not the last byte of [suffix] does not end
    with [suffix]. *)
Lemma HasSuffix_last_differs (a suffix : gostring) (c d : ascii) :
  c <> d -> strings.HasSuffix (a ++ [c]) (suffix ++ [d]) = false.
Proof.
  intros Hne. destruct (strings.HasSuffix _ _) eqn:E; [|reflexivity].
  apply HasSuffix_iff in E. destruct E as [a' E].
  rewrite app_assoc in E. apply app_inj_tail in E. destruct E as [_ E].
  contradiction.
Qed.

Lemma split_loop_slash_cons (s cur : gostring) :
  strings.split_loop (lit "/") ("/"%char :: s) cur 0
  = rev cur :: strings.split_loop (lit "/") s [] 0.
Proof. reflexivity. Qed.

Lemma split_loop_other_cons (c : ascii) (s cur : gostring) :
  code c <> 47 ->
  strings.split_loop (lit "/") (c :: s) cur 0
  = strings.split_loop (lit "/") s (c :: cur) 0.
Proof.
  intros Hc. cbn [strings.split_loop lit list_ascii_of_string strings.HasPrefix].
  rewrite eqb_code.
  replace (code c =? code "/"%char) with false; [reflexivity|].
  symmetry. apply Z.eqb_neq. exact Hc.
Qed.

Lemma split_loop_no_slash_app (a s cur : gostring) :
  no_slash a ->
  strings.split_loop (lit "/") (a ++ s) cur 0
  = strings.split_loop (lit "/") s (rev a ++ cur) 0.
Proof.
  intros Ha. revert cur. induction Ha as [|c a Hc Ha IH]; intros cur.
  - reflexivity.
  - cbn [app]. rewrite split_loop_other_cons by exact Hc.
    rewrite IH. cbn [rev]. rewrite <- app_assoc. reflexivity.
Qed.

(** Splitting never gives an empty list of components, whatever the
    non-empty separator. *)
Lemma split_loop_nonempty (sep s cur : gostring) (skip : nat) :
  strings.split_loop sep s cur skip <> [].
Proof.
  revert cur skip. induction s as [|c s IH]; intros cur skip; cbn.
  - discriminate.
  - destruct skip; [|apply IH].
    destruct (strings.HasPrefix _ _); [discriminate|apply IH].
Qed.

Lemma find_none_forallb {A} (f : A -> bool) (l : list A) :
  forallb (fun x => negb (f x)) l = true -> find f l = None.
Proof.
  induction l as [|x l IH]; cbn; [reflexivity|].
  rewrite andb_true_iff, negb_true_iff. intros [-> H]. apply IH, H.
Qed.

Lemma spaceRunes_first_last :
  forallb (fun p => match p with
                    | [] => false
                    | d :: _ => negb (graphicb d || graphicb (last p d))
                    end) strings.spaceRunes = true.
Proof. vm_compute. reflexivity. Qed.

Lemma HasPrefix_first_differs (c d : ascii) (r p : gostring) :
  c <> d -> strings.HasPrefix (c :: r) (d :: p) = false.
Proof.
  intros Hne. cbn. destruct (Ascii.eqb_spec c d); [contradiction|reflexivity].
Qed.

Lemma leadingSpace_graphic (c : ascii) (r : gostring) :
  graphicb c = true -> strings.leadingSpace (c :: r) = None.
Proof.
  intros Hc. unfold strings.leadingSpace.
  rewrite find_none_forallb; [reflexivity|].
  pose proof spaceRunes_first_last as H.
  rewrite forallb_forall in H |- *. intros p Hp. specialize (H p Hp).
  destruct p as [|d p]; [discriminate|].
  rewrite negb_true_iff in H |- *. apply orb_false_elim in H. destruct H as [H _].
  apply HasPrefix_first_differs. intros ->. congruence.
Qed.

Lemma trailingSpace_graphic (a : gostring) (c : ascii) :
  graphicb c = true -> strings.trailingSpace (a ++ [c]) = None.
Proof.
  intros Hc. unfold strings.trailingSpace.
  rewrite find_none_forallb; [reflexivity|].
  pose proof spaceRunes_first_last as H.
  rewrite forallb_forall in H |- *. intros p Hp. specialize (H p Hp).
  destruct p as [|d p]; [discriminate|].
  rewrite negb_true_iff in H |- *. apply orb_false_elim in H. destruct H as [_ H].
  rewrite (app_removelast_last d (l := d :: p)) by discriminate.
  apply HasSuffix_last_differs. intros ->. congruence.
Qed.

(** Trimming leaves a text alone that starts and ends with such bytes. *)
Lemma TrimSpace_graphic (c d : ascii) (r a : gostring) :
  graphicb c = true -> graphicb d = true -> c :: r = a ++ [d] ->
  strings.TrimSpace (c :: r) = c :: r.
Proof.
  intros Hc Hd E. unfold strings.TrimSpace.
  cbn [List.length strings.trimLeft]. rewrite leadingSpace_graphic by exact Hc.
  cbn [List.length strings.trimRight]. rewrite E at 1.
  rewrite trailingSpace_graphic by exact Hd. reflexivity.
Qed.

Lemma TrimSpace_nil : strings.TrimSpace [] = [].
Proof. reflexivity. Qed.

(** ** The rounds of TrimSpace are enough *)

Lemma HasPrefix_iff (s prefix : gostring) :
  strings.HasPrefix s prefix = true <-> exists r, s = prefix ++ r.
Proof.
  revert s. induction prefix as [|p prefix IH]; intros s; cbn.
  - split; [intros _; exists s; reflexivity|reflexivity].
  - destruct s as [|c s].
    + split; [discriminate|intros [r E]; discriminate].
    + rewrite andb_true_iff, IH. split.
      * intros [Hc [r ->]]. apply Ascii.eqb_eq in Hc. subst. exists r. reflexivity.
      * intros [r E]. injection E as -> ->. split; [apply Ascii.eqb_refl|].
        exists r. reflexivity.
Qed.

Lemma spaceRunes_nonempty (p : gostring) :
  In p strings.spaceRunes -> (1 <= len p)%nat.
Proof.
  assert (H : forallb (fun p => (1 <=? len p)%nat) strings.spaceRunes = true)
    by (vm_compute; reflexivity).
  rewrite forallb_forall in H. intros Hp. apply Nat.leb_le, H, Hp.
Qed.

Lemma leadingSpace_Some (s : gostring) (w : nat) :
  strings.leadingSpace s = Some w ->
  (1 <= w <= len s)%nat.
Proof.
  unfold strings.leadingSpace.
  destruct (find _ _) as [p|] eqn:E; [|discriminate].
  cbn. intros H. injection H as <-.
  apply find_some in E. destruct E as [Hin Hp].
  split; [apply spaceRunes_nonempty, Hin|].
  apply HasPrefix_iff in Hp. destruct Hp as [r ->]. rewrite length_app. lia.
Qed.

Lemma trailingSpace_Some (s : gostring) (w : nat) :
  strings.trailingSpace s = Some w ->
  (1 <= w <= len s)%nat.
Proof.
  unfold strings.trailingSpace.
  destruct (find _ _) as [p|] eqn:E; [|discriminate].
  cbn. intros H. injection H as <-.
  apply find_some in E. destruct E as [Hin Hp].
  split; [apply spaceRunes_nonempty, Hin|].
  apply HasSuffix_iff in Hp. destruct Hp as [r ->]. rewrite length_app. lia.
Qed.

Lemma trimLeft_enough (fuel : nat) (s : gostring) :
  (len s <= fuel)%nat -> strings.leadingSpace (strings.trimLeft fuel s) = None.
Proof.
  revert s. induction fuel as [|fuel IH]; intros s Hs.
  - destruct s; [reflexivity|cbn in Hs; lia].
  - cbn [strings.trimLeft]. destruct (strings.leadingSpace s) as [w|] eqn:E;
      [|exact E].
    apply IH. apply leadingSpace_Some in E. rewrite length_skipn. lia.
Qed.

Lemma trimRight_enough (fuel : nat) (s : gostring) :
  (len s <= fuel)%nat -> strings.trailingSpace (strings.trimRight fuel s) = None.
Proof.
  revert s. induction fuel as [|fuel IH]; intros s Hs.
  - destruct s; [reflexivity|cbn in Hs; lia].
  - cbn [strings.trimRight]. destruct (strings.trailingSpace s) as [w|] eqn:E;
      [|exact E].
    apply IH. apply trailingSpace_Some in E. rewrite length_firstn. lia.
Qed.

Lemma trimRight_is_prefix (fuel : nat) (s : gostring) :
  exists r, s = strings.trimRight fuel s ++ r.
Proof.
  revert s. induction fuel as [|fuel IH]; intros s.
  - exists []. symmetry. apply app_nil_r.
  - cbn [strings.trimRight]. destruct (strings.trailingSpace s) as [w|].
    + destruct (IH (firstn (len s - w) s)) as [r Hr].
      exists (r ++ skipn (len s - w) s).
      rewrite app_assoc, <- Hr. symmetry. apply firstn_skipn.
    + exists []. symmetry. apply app_nil_r.
Qed.

(** What [TrimSpace] returns neither starts nor ends with white space. *)
Lemma TrimSpace_trimmed (s : gostring) :
  strings.leadingSpace (strings.TrimSpace s) = None
  /\ strings.trailingSpace (strings.TrimSpace s) = None.
Proof.
  unfold strings.TrimSpace. cbv zeta. split.
  - pose proof (trimLeft_enough (len s) s (Nat.le_refl _)) as Hl.
    destruct (trimRight_is_prefix (len (strings.trimLeft (len s) s))
                (strings.trimLeft (len s) s)) as [r Hr].
    unfold strings.leadingSpace in *.
    destruct (find _ strings.spaceRunes) as [p|] eqn:E in |- *; [|reflexivity].
    apply find_some in E. destruct E as [Hin Hp].
    apply HasPrefix_iff in Hp. destruct Hp as [r' Hp].
    destruct (find _ strings.spaceRunes) as [p'|] eqn:E' in Hl; [discriminate|].
    pose proof (find_none _ _ E' p Hin) as Hno.
    assert (Hyes : strings.HasPrefix (strings.trimLeft (len s) s) p = true).
    { apply HasPrefix_iff. exists (r' ++ r). rewrite Hr at 1. rewrite Hp.
      symmetry. apply app_assoc. }
    congruence.
  - apply trimRight_enough, Nat.le_refl.
Qed.

(** ** Integer literals *)

Ltac zbool :=
  repeat (match goal with
          | |- context [?a <=? ?b] => destruct (Z.leb_spec a b)
          | |- context [?a <? ?b] => destruct (Z.ltb_spec a b)
          | |- context [?a =? ?b] => destruct (Z.eqb_spec a b)
          | H : context [?a <=? ?b] |- _ => destruct (Z.leb_spec a b)
          | H : context [?a <? ?b] |- _ => destruct (Z.ltb_spec a b)
          | H : context [?a =? ?b] |- _ => destruct (Z.eqb_spec a b)
          end; cbn [andb orb negb] in *);
  try discriminate; try lia.

Lemma digit_in_facts (b : Z) (c : ascii) :
  2 <= b <= 16 -> digit_in b c = true ->
  exists d, digit_of c = Some d /\ 0 <= d < b
            /\ big.digitVal b c = d /\ code c <> 95
            /\ code c <> 45 /\ code c <> 43
            /\ (d = 0 <-> code c = 48).
Proof.
  intros Hb H. unfold digit_in in H. destruct (digit_of c) as [d|] eqn:E;
    [|discriminate].
  exists d. split; [reflexivity|].
  unfold digit_of in E. unfold big.digitVal, big.maxBaseSmall.
  cbv zeta in *.
  pose proof (code_range c).
  zbool; inversion E; subst; repeat split; lia.
Qed.

Lemma literal_value_app (b : Z) (ds1 ds2 : gostring) (acc : Z) :
  literal_value b (ds1 ++ ds2) acc
  = literal_value b ds2 (literal_value b ds1 acc).
Proof. unfold literal_value. apply fold_left_app. Qed.

(** The digit loop on a string of digits of base [b] reads all of it. *)
Lemma scan_digits_literal (b : Z) (ds : gostring) (st : big.scanState) :
  2 <= b <= 16 -> forallb (digit_in b) ds = true ->
  big.scan_digits 0 b ds st
  = (big.mkScan (match ds with [] => big.prev st | _ => 48 end)
       (big.invalSep st)
       (big.count st + Z.of_nat (len ds))
       (literal_value b ds (big.abs st)), []).
Proof.
  intros Hb. revert st. induction ds as [|c ds IH]; intros st Hds.
  - cbn. rewrite Z.add_0_r. destruct st; reflexivity.
  - cbn [forallb] in Hds. apply andb_true_iff in Hds. destruct Hds as [Hc Hds].
    destruct (digit_in_facts b c Hb Hc) as (d & Hd & Hr & Hv & H95 & _).
    cbn [big.scan_digits]. cbv zeta. rewrite Hv.
    replace (code c =? 95) with false by (symmetry; apply Z.eqb_neq; exact H95).
    cbn [andb].
    replace (b <=? d) with false by (symmetry; apply Z.leb_gt; lia).
    rewrite IH by exact Hds. cbn [big.prev big.invalSep big.count big.abs].
    unfold literal_value at 2. cbn [fold_left]. rewrite Hd.
    f_equal. f_equal.
    + destruct ds; reflexivity.
    + cbn [List.length]. lia.
Qed.

Lemma eqb_false (a b : Z) : a <> b -> (a =? b) = false.
Proof. apply Z.eqb_neq. Qed.

(** Without a sign the whole string is the magnitude. *)
Lemma SetString_unsigned (c : ascii) (r : gostring) (base : Z) :
  code c <> 45 -> code c <> 43 ->
  big.SetString (c :: r) base
  = match big.scan_nat (c :: r) base with
    | (Some a, []) => Some a
    | _ => None
    end.
Proof.
  intros Hm Hp. unfold big.SetString. cbv zeta.
  rewrite (eqb_false _ _ Hm), (eqb_false _ _ Hp). reflexivity.
Qed.

Lemma scan_nat_no_prefix (c : ascii) (r : gostring) :
  code c <> 48 ->
  big.scan_nat (c :: r) 0
  = big.scan_finish 0 (big.scan_digits 0 10 (c :: r) (big.mkScan 46 false 0 0)).
Proof.
  intros H0. unfold big.scan_nat. change (0 =? 0) with true. cbv iota.
  rewrite (eqb_false _ _ H0). reflexivity.
Qed.



(** The end of the scan after a non-empty run of digits that was read to
    the end of the input. *)
Lemma scan_finish_digits (prefix b : Z) (c : ascii) (r : gostring)
    (st : big.scanState) :
  2 <= b <= 16 -> forallb (digit_in b) (c :: r) = true ->
  big.invalSep st = false -> big.count st = 0 ->
  big.scan_finish prefix (big.scan_digits 0 b (c :: r) st)
  = (Some (literal_value b (c :: r) (big.abs st)), []).
Proof.
  intros Hb Hds Hsep Hcount.
  rewrite scan_digits_literal by assumption.
  unfold big.scan_finish. cbn [big.prev big.invalSep big.count big.abs].
  rewrite Hsep, Hcount. change (48 =? 95) with false. cbn [orb List.length].
  rewrite eqb_false by lia. reflexivity.
Qed.

Lemma digit_in_code (b : Z) (c : ascii) :
  2 <= b <= 16 -> digit_in b c = true ->
  code c <> 45 /\ code c <> 43 /\ (b <= 10 -> 48 <= code c <= 57).
Proof.
  intros Hb H. unfold digit_in, digit_of in H. cbv zeta in H.
  pose proof (code_range c). revert H. zbool.
Qed.

(** A literal without prefix whose first digit is not [0] is decimal. *)
Lemma SetString_decimal_literal (c : ascii) (r : gostring) :
  forallb (digit_in 10) (c :: r) = true -> code c <> 48 ->
  big.SetString (c :: r) 0 = Some (literal_value 10 (c :: r) 0).
Proof.
  intros Hds H0. pose proof Hds as Hds'.
  cbn [forallb] in Hds'. apply andb_true_iff in Hds'. destruct Hds' as [Hc _].
  destruct (digit_in_code 10 c ltac:(lia) Hc) as (Hm & Hp & _).
  rewrite SetString_unsigned by assumption.
  rewrite scan_nat_no_prefix by assumption.
  rewrite scan_finish_digits by (assumption || reflexivity || lia).
  reflexivity.
Qed.



(** Go reads the decimal numeral of [u] as [u]. *)
Lemma SetString_decimal_of (ds : gostring) (u : Z) :
  decimal_of ds u -> big.SetString ds 0 = Some u.
Proof.
  intros (Hds & Hv & Hlead). destruct ds as [|c r]; [contradiction|].
  destruct (Z.eq_dec (code c) 48) as [E|E].
  - specialize (Hlead E). subst r.
    assert (c = "0"%char) by (apply code_inj; exact E). subst c.
    rewrite <- Hv. reflexivity.
  - rewrite <- Hv. apply SetString_decimal_literal; assumption.
Qed.

(** ** The decimal verb *)

Lemma digit_byte (d : Z) :
  0 <= d < 10 ->
  digit_of (byte_of (48 + d)) = Some d /\ digit_in 10 (byte_of (48 + d)) = true.
Proof.
  intros Hd. unfold digit_in, digit_of. cbv zeta.
  rewrite code_byte_of by lia.
  replace ((48 <=? 48 + d) && (48 + d <=? 57)) with true by (zbool; reflexivity).
  split; [f_equal; lia|]. apply Z.ltb_lt. lia.
Qed.

(** With fuel for its digits, the loop puts the decimal numeral of [u] in
    front of the buffer. *)
Lemma fmt_digits_decimal (fuel : nat) (u : Z) (buf : gostring) :
  0 <= u < 2 ^ Z.of_nat fuel -> (1 <= fuel)%nat ->
  exists ds, fmt.fmt_digits fuel u buf = ds ++ buf /\ decimal_of ds u.
Proof.
  revert u buf. induction fuel as [|fuel IH]; intros u buf Hu Hfuel; [lia|].
  cbn [fmt.fmt_digits]. destruct (Z.leb_spec 10 u) as [Hge|Hlt].
  - assert (Hq : 1 <= u / 10) by (apply Z.div_le_lower_bound; lia).
    assert (Hq2 : u / 10 < 2 ^ Z.of_nat fuel).
    { rewrite Nat2Z.inj_succ, Z.pow_succ_r in Hu by lia.
      apply Z.div_lt_upper_bound; lia. }
    assert (Hf : (1 <= fuel)%nat).
    { destruct fuel; [cbn in Hq2; lia|lia]. }
    destruct (IH (u / 10) (byte_of (48 + u mod 10) :: buf)) as (ds & E & Hds & Hv & Hl);
      [lia|exact Hf|].
    pose proof (Z.mod_pos_bound u 10 ltac:(lia)) as Hm.
    destruct (digit_byte (u mod 10) Hm) as [Hd1 Hd2].
    exists (ds ++ [byte_of (48 + u mod 10)]). split.
    + rewrite E, <- app_assoc. reflexivity.
    + split; [|split].
      * rewrite forallb_app, Hds. cbn [forallb andb]. rewrite Hd2. reflexivity.
      * rewrite literal_value_app, Hv. unfold literal_value. cbn [fold_left].
        rewrite Hd1. pose proof (Z.div_mod u 10). lia.
      * destruct ds as [|c r]; [contradiction|]. cbn [app].
        intros Hc. specialize (Hl Hc). subst r.
        assert (c = "0"%char) by (apply code_inj; exact Hc). subst c.
        cbn in Hv. lia.
  - destruct (digit_byte u ltac:(lia)) as [Hd1 Hd2].
    exists [byte_of (48 + u)]. split; [reflexivity|].
    split; [|split].
    + cbn [forallb]. rewrite Hd2. reflexivity.
    + unfold literal_value. cbn [fold_left]. rewrite Hd1. lia.
    + reflexivity.
Qed.

Lemma fmt_d_decimal_of (u : Z) : 0 <= u -> decimal_of (fmt.fmt_d u) u.
Proof.
  intros Hu. unfold fmt.fmt_d. cbv zeta.
  replace (u <? 0) with false by (symmetry; apply Z.ltb_ge; lia).
  rewrite Z.abs_eq by exact Hu.
  destruct (fmt_digits_decimal (S (Z.to_nat (Z.log2 u))) u []) as (ds & E & H).
  - split; [exact Hu|].
    rewrite Nat2Z.inj_succ, Z2Nat.id by apply Z.log2_nonneg.
    destruct (Z.eq_dec u 0) as [->|Hne]; [reflexivity|].
    apply Z.log2_spec. lia.
  - lia.
  - rewrite E, app_nil_r. exact H.
Qed.

(** Reading back what [%d] wrote. *)
Lemma SetString_fmt_d (u : Z) :
  0 <= u -> big.SetString (fmt.fmt_d u) 0 = Some u.
Proof. intros Hu. apply SetString_decimal_of, fmt_d_decimal_of, Hu. Qed.

Lemma digit_in_10_code (c : ascii) :
  digit_in 10 c = true -> 48 <= code c <= 57.
Proof.
  intros H. apply (digit_in_code 10 c) in H; [|lia]. destruct H as (_ & _ & H).
  apply H. lia.
Qed.

(** ** One component *)

(** The range check in plain comparisons. *)
Lemma range_check_eq (bigval max : Z) :
  (big.Sign bigval <? 0) || (big.Cmp bigval max >? 0)
  = (bigval <? 0) || (max <? bigval).
Proof.
  f_equal.
  - destruct bigval; reflexivity.
  - unfold big.Cmp. destruct (Z.compare_spec bigval max);
      symmetry; [apply Z.ltb_ge|apply Z.ltb_ge|apply Z.ltb_lt]; lia.
Qed.

(** The ceiling of the range check: [math.MaxUint32 - value] in [uint32]. *)
Lemma ceiling_eq (value : Z) :
  value = 0 \/ value = 2147483648 ->
  uint32 (MaxUint32 - value) = 4294967295 - value.
Proof. intros [->| ->]; reflexivity. Qed.

Lemma hardened_split_offset (component : gostring) :
  fst (hardened_split component) = 0
  \/ fst (hardened_split component) = 2147483648.
Proof.
  unfold hardened_split. destruct (strings.HasSuffix _ _); cbn; auto.
Qed.

(** What the loop body answers, by the cases of the text that is left once
    the apostrophe is cut off. *)
Lemma parseComponent_cases (component : gostring) :
  let value := fst (hardened_split (strings.TrimSpace component)) in
  let text := snd (hardened_split (strings.TrimSpace component)) in
  let max := 4294967295 - value in
  parseComponent component
  = match big.SetString text 0 with
    | None => inr (InvalidComponent text)
    | Some bigval =>
        if (bigval <? 0) || (max <? bigval)
        then inr (ComponentOutOfRange bigval max (negb (value =? 0)))
        else inl (value, bigval)
    end.
Proof.
  cbv zeta. unfold parseComponent. cbv zeta.
  pose proof (hardened_split_offset (strings.TrimSpace component)) as Hoff.
  destruct (hardened_split (strings.TrimSpace component)) as [value text].
  cbn [fst snd] in *.
  destruct (big.SetString text 0) as [bigval|]; [|reflexivity].
  rewrite range_check_eq, ceiling_eq by exact Hoff. reflexivity.
Qed.

Lemma decimal_shape (ds : gostring) (u : Z) :
  decimal_of ds u ->
  exists c r a d, ds = c :: r /\ ds = a ++ [d]
    /\ graphicb c = true /\ graphicb d = true /\ d <> "'"%char.
Proof.
  intros (Hds & _ & Hne). destruct ds as [|c r]; [contradiction|].
  destruct (exists_last (l := c :: r)) as (a & d & E); [discriminate|].
  exists c, r, a, d. split; [reflexivity|]. split; [exact E|].
  assert (Hc : 48 <= code c <= 57).
  { apply digit_in_10_code. cbn [forallb] in Hds.
    apply andb_true_iff in Hds. apply Hds. }
  assert (Hd : 48 <= code d <= 57).
  { apply digit_in_10_code. rewrite E, forallb_app in Hds.
    apply andb_true_iff in Hds. destruct Hds as [_ Hds]. cbn in Hds.
    rewrite andb_true_r in Hds. exact Hds. }
  unfold graphicb. repeat split.
  - zbool; reflexivity.
  - zbool; reflexivity.
  - intros ->. change (code "'"%char) with 39 in Hd. lia.
Qed.

Lemma TrimSpace_decimal (ds : gostring) (u : Z) :
  decimal_of ds u -> strings.TrimSpace ds = ds.
Proof.
  intros H. destruct (decimal_shape ds u H) as (c & r & a & d & E1 & E2 & Hc & Hd & _).
  subst ds. apply (TrimSpace_graphic c d r a); assumption.
Qed.

Lemma TrimSpace_decimal_hardened (ds : gostring) (u : Z) :
  decimal_of ds u -> strings.TrimSpace (ds ++ lit "'") = ds ++ lit "'".
Proof.
  intros H. destruct (decimal_shape ds u H) as (c & r & a & d & E1 & E2 & Hc & Hd & _).
  subst ds. cbn [app].
  apply (TrimSpace_graphic c "'"%char (r ++ lit "'") (c :: r));
    [assumption|reflexivity|reflexivity].
Qed.

Lemma hardened_split_decimal (ds : gostring) (u : Z) :
  decimal_of ds u -> hardened_split ds = (0, ds).
Proof.
  intros H. destruct (decimal_shape ds u H) as (c & r & a & d & E1 & E2 & _ & _ & Hd).
  unfold hardened_split. rewrite E2 at 1.
  change (lit "'") with ([] ++ ["'"%char]).
  rewrite HasSuffix_last_differs by exact Hd. reflexivity.
Qed.

Lemma hardened_split_decimal_hardened (ds : gostring) (u : Z) :
  decimal_of ds u -> hardened_split (ds ++ lit "'") = (2147483648, ds).
Proof.
  intros H. unfold hardened_split.
  rewrite HasSuffix_app, TrimSuffix_app, (TrimSpace_decimal ds u H).
  reflexivity.
Qed.

(** Parsing the canonical text of an index gives its offset and its
    numeric part. *)
Lemma parseComponent_text (c : Z) :
  is_uint32 c ->
  parseComponent (component_text c)
  = inl (if 2147483648 <=? c then (2147483648, c - 2147483648) else (0, c)).
Proof.
  intros Hc. unfold is_uint32 in Hc. rewrite parseComponent_cases. cbv zeta.
  unfold component_text. destruct (Z.leb_spec 2147483648 c) as [Hh|Hn].
  - assert (Hu : uint32 (c - 2147483648) = c - 2147483648).
    { unfold uint32. apply Z.mod_small. lia. }
    rewrite Hu.
    pose proof (fmt_d_decimal_of (c - 2147483648) ltac:(lia)) as Hdec.
    rewrite (TrimSpace_decimal_hardened _ _ Hdec).
    rewrite (hardened_split_decimal_hardened _ _ Hdec). cbn [fst snd].
    rewrite SetString_fmt_d by lia.
    replace ((c - 2147483648 <? 0) || (4294967295 - 2147483648 <? c - 2147483648))
      with false by (zbool; reflexivity).
    reflexivity.
  - pose proof (fmt_d_decimal_of c ltac:(lia)) as Hdec.
    rewrite (TrimSpace_decimal _ _ Hdec).
    rewrite (hardened_split_decimal _ _ Hdec). cbn [fst snd].
    rewrite SetString_fmt_d by lia.
    replace ((c <? 0) || (4294967295 - 0 <? c))
      with false by (zbool; reflexivity).
    reflexivity.
Qed.

(** ** The canonical text *)

(** [String] writes [m] and then, for each index, a slash and the text of
    the index. *)
Lemma String_fold_flat (path : DerivationPath) (init : gostring) :
  fold_left
    (fun result component =>
       let hardened := 2147483648 <=? component in
       let component :=
         if hardened then uint32 (component - 2147483648) else component in
       let result := result ++ lit "/" ++ fmt.fmt_d component in
       if hardened then result ++ lit "'" else result)
    path init
  = init ++ flat_map (fun c => "/"%char :: component_text c) path.
Proof.
  revert init. induction path as [|c path IH]; intros init.
  - cbn. symmetry. apply app_nil_r.
  - cbn [fold_left flat_map]. rewrite IH. cbv zeta. unfold component_text.
    destruct (2147483648 <=? c); cbn [lit list_ascii_of_string app];
      repeat rewrite <- app_assoc; reflexivity.
Qed.

Lemma String_flat (path : DerivationPath) :
  DerivationPath_String path
  = lit "m" ++ flat_map (fun c => "/"%char :: component_text c) path.
Proof. apply String_fold_flat. Qed.

Lemma decimal_no_slash (ds : gostring) (u : Z) : decimal_of ds u -> no_slash ds.
Proof.
  intros (Hds & _). unfold no_slash. apply Forall_forall. intros c Hc.
  rewrite forallb_forall in Hds. pose proof (digit_in_10_code c (Hds c Hc)). lia.
Qed.

Lemma component_text_no_slash (c : Z) :
  is_uint32 c -> no_slash (component_text c).
Proof.
  intros Hc. unfold is_uint32 in Hc. unfold component_text.
  destruct (Z.leb_spec 2147483648 c).
  - apply Forall_app. split.
    + apply (decimal_no_slash _ (uint32 (c - 2147483648))), fmt_d_decimal_of.
      unfold uint32. apply Z.mod_pos_bound. lia.
    + repeat constructor. discriminate.
  - apply (decimal_no_slash _ c), fmt_d_decimal_of. lia.
Qed.

(** Splitting the canonical text gives [m] and the texts of the indices. *)
Lemma split_loop_flat (path : DerivationPath) (cur : gostring) :
  uint32_path path ->
  strings.split_loop (lit "/")
    (flat_map (fun c => "/"%char :: component_text c) path) cur 0
  = rev cur :: map component_text path.
Proof.
  intros Hp. revert cur. induction Hp as [|c path Hc Hp IH]; intros cur.
  - reflexivity.
  - cbn [flat_map map app]. rewrite split_loop_slash_cons. f_equal.
    rewrite split_loop_no_slash_app by (apply component_text_no_slash, Hc).
    rewrite IH, app_nil_r, rev_involutive. reflexivity.
Qed.

Lemma Split_String (path : DerivationPath) :
  uint32_path path ->
  strings.Split (DerivationPath_String path) (lit "/")
  = lit "m" :: map component_text path.
Proof.
  intros Hp. rewrite String_flat. cbn [strings.Split lit list_ascii_of_string app].
  rewrite split_loop_other_cons by discriminate.
  apply (split_loop_flat path ["m"%char] Hp).
Qed.

(** The loop over the texts of the indices of a path appends that path. *)
Lemma parse_loop_text (path result : DerivationPath) :
  uint32_path path ->
  parse_loop (map component_text path) result = (result ++ path, None).
Proof.
  intros Hp. revert result. induction Hp as [|c path Hc Hp IH]; intros result.
  - cbn. rewrite app_nil_r. reflexivity.
  - cbn [map parse_loop]. rewrite parseComponent_text by exact Hc.
    unfold is_uint32 in Hc.
    assert (E : forall off v, 0 <= off -> 0 <= v -> off + v = c ->
                uint32 (off + uint32 (big.Uint64 v)) = c).
    { intros off v Hoff Hv <-. unfold big.Uint64, uint32.
      rewrite Z.abs_eq by exact Hv.
      rewrite (Z.mod_small v (2 ^ 64)) by lia.
      rewrite (Z.mod_small v (2 ^ 32)) by lia.
      apply Z.mod_small. lia. }
    destruct (Z.leb_spec 2147483648 c).
    + rewrite E by lia. rewrite IH, <- app_assoc. reflexivity.
    + rewrite E by lia. rewrite IH, <- app_assoc. reflexivity.
Qed.

Lemma TrimSpace_m : strings.TrimSpace (lit "m") = lit "m".
Proof. reflexivity. Qed.

(** Parsing the canonical text of a non-empty path gives the path back. *)
Lemma Parse_String (path : DerivationPath) (base : list DerivationPath) :
  uint32_path path -> path <> [] ->
  ParseDerivationPath (DerivationPath_String path) base = (path, None).
Proof.
  intros Hp Hne. unfold ParseDerivationPath. cbv zeta.
  rewrite Split_String by exact Hp.
  unfold switch_case. rewrite TrimSpace_m.
  change (gostring_eqb (lit "m") (lit "")) with false.
  change (gostring_eqb (lit "m") (lit "m")) with true. cbv iota.
  cbn [tl]. unfold parse_remaining.
  destruct path as [|c path]; [contradiction|].
  cbn [map List.length Nat.eqb].
  change (component_text c :: map component_text path)
    with (map component_text (c :: path)).
  rewrite parse_loop_text by exact Hp. reflexivity.
Qed.

(** The canonical text of the empty path is [m], which is no path text. *)
Lemma Parse_String_nil (base : list DerivationPath) :
  DerivationPath_String [] = lit "m"
  /\ ParseDerivationPath (DerivationPath_String []) base = ([], Some EmptyPath).
Proof. split; reflexivity. Qed.

(** ** What a successful parse returns *)

Lemma parse_loop_success (components : list gostring)
    (result r : DerivationPath) :
  parse_loop components result = (r, None) ->
  exists added, r = result ++ added
    /\ List.length added = List.length components
    /\ uint32_path added.
Proof.
  revert result. induction components as [|c components IH]; intros result H.
  - cbn in H. inversion H. exists []. rewrite app_nil_r.
    repeat split. constructor.
  - cbn [parse_loop] in H. destruct (parseComponent c) as [[value bigval]|err];
      [|discriminate].
    destruct (IH _ H) as (added & -> & Hlen & Hu).
    exists (uint32 (value + uint32 (big.Uint64 bigval)) :: added).
    rewrite <- app_assoc. repeat split.
    + cbn. rewrite Hlen. reflexivity.
    + constructor; [|exact Hu]. unfold is_uint32, uint32.
      apply Z.mod_pos_bound. lia.
Qed.

Lemma parse_remaining_success (components : list gostring)
    (result r : DerivationPath) :
  parse_remaining components result = (r, None) ->
  exists added, r = result ++ added /\ added <> [] /\ uint32_path added.
Proof.
  unfold parse_remaining. destruct components as [|c components];
    [discriminate|].
  cbn [List.length Nat.eqb]. intros H.
  destruct (parse_loop_success _ _ _ H) as (added & E & Hlen & Hu).
  exists added. repeat split; try assumption.
  intros ->. discriminate.
Qed.

(** A successful parse returns the base path, or nothing for an absolute
    path, followed by at least one index. *)
Lemma Parse_success (path : gostring) (base : list DerivationPath)
    (r : DerivationPath) :
  ParseDerivationPath path base = (r, None) ->
  exists prefix added,
    r = prefix ++ added /\ added <> [] /\ uint32_path added
    /\ (prefix = [] \/ exists rest, base = prefix :: rest).
Proof.
  unfold ParseDerivationPath. cbv zeta.
  destruct (switch_case _); try discriminate.
  - intros H. destruct (parse_remaining_success _ _ _ H) as (added & E & Hne & Hu).
    exists [], added. auto.
  - destruct base as [|base0 rest]; [discriminate|].
    intros H. destruct (parse_remaining_success _ _ _ H) as (added & E & Hne & Hu).
    exists base0, added. cbn [app] in E. repeat split; try assumption.
    right. exists rest. reflexivity.
Qed.

(** ** The claims about parsing and the canonical text *)

(** C1: for every path that a successful call of ParseDerivationPath
    returns (the base paths being sequences of uint32 values), parsing its
    canonical text String() with no base path succeeds and returns the same
    path: String is a left inverse of parsing on what parsing returns. *)
Theorem String_round_trip (path : gostring) (base : list DerivationPath)
    (p : DerivationPath) :
  Forall uint32_path base ->
  ParseDerivationPath path base = (p, None) ->
  ParseDerivationPath (DerivationPath_String p) [] = (p, None).
Proof.
  intros Hbase H.
  destruct (Parse_success _ _ _ H) as (prefix & added & -> & Hne & Hu & Hpre).
  apply Parse_String.
  - apply Forall_app. split; [|exact Hu].
    destruct Hpre as [->|[rest ->]]; [constructor|].
    inversion Hbase; assumption.
  - destruct prefix; [exact Hne|discriminate].
Qed.

Lemma String_round_trip_witness :
  ParseDerivationPath
    (DerivationPath_String [0x8000002C; 0x8000003C; 0x80000000; 0; 0]) []
  = ([0x8000002C; 0x8000003C; 0x80000000; 0; 0], None).
Proof.
  apply (String_round_trip (lit "m/44'/60'/0'/0/0") []).
  - constructor.
  - reflexivity.
Defined.

(** C10: every path that ParseDerivationPath returns without an error
    holds at least one index, whatever the input text and the base path; the
    empty path, whose canonical text is [m], is never a parse result. *)
Theorem Parse_result_nonempty (path : gostring) (base : list DerivationPath)
    (p : DerivationPath) :
  ParseDerivationPath path base = (p, None) ->
  (1 <= List.length p)%nat.
Proof.
  intros H.
  destruct (Parse_success _ _ _ H) as (prefix & added & -> & Hne & _).
  rewrite length_app. destruct added; [contradiction|]. cbn. lia.
Qed.

Lemma Parse_result_nonempty_witness :
  (1 <= List.length [0x8000002C%Z; 0x8000003C%Z])%nat.
Proof.
  apply (Parse_result_nonempty (lit "44'/60'") [[]]).
  reflexivity.
Defined.

(** C9: splitting any text on the slash gives at least one component, so
    the first case of the switch (no components, the EmptyPath error) is
    never taken; the empty text fails with the AmbiguousPath error. *)
Theorem Split_never_empty (path : gostring) :
  (1 <= List.length (strings.Split path (lit "/")))%nat
  /\ switch_case (strings.Split path (lit "/")) <> NoComponents
  /\ forall base, ParseDerivationPath (lit "") base = ([], Some AmbiguousPath).
Proof.
  assert (Hne : strings.Split path (lit "/") <> []).
  { cbn. apply split_loop_nonempty. }
  split; [|split].
  - destruct (strings.Split path (lit "/")); [contradiction|cbn; lia].
  - unfold switch_case. destruct (strings.Split path (lit "/")) as [|c0 cs];
      [contradiction|].
    destruct (gostring_eqb _ _); [discriminate|].
    destruct (gostring_eqb _ _); discriminate.
  - reflexivity.
Qed.

(** C6: parsing [m] alone fails with the EmptyPath error and returns the
    nil path; parsing the relative text 44'/60' with that returned path as
    the base gives the indices 0x8000002C and 0x8000003C. *)
Theorem relative_on_empty_base :
  ParseDerivationPath (lit "m") [] = ([], Some EmptyPath)
  /\ ParseDerivationPath (lit "44'/60'")
       [fst (ParseDerivationPath (lit "m") [])]
     = ([0x8000002C; 0x8000003C], None).
Proof. split; reflexivity. Qed.

(** C5, as the code has it: parsing [/m] fails with the AmbiguousPath error
    and parsing [m/] fails with the InvalidComponent error on the empty
    component; both fail and neither returns a path without an error. *)
Theorem trailing_and_leading_slash (base : list DerivationPath) :
  ParseDerivationPath (lit "/m") base = ([], Some AmbiguousPath)
  /\ ParseDerivationPath (lit "m/") base = ([], Some (InvalidComponent (lit ""))).
Proof. split; reflexivity. Qed.

(** C5, the counterexample: the error of parsing [m/] is neither
    AmbiguousPath nor EmptyPath. *)
Lemma trailing_slash_is_invalid_component :
  ParseDerivationPath (lit "m/") [] = ([], Some (InvalidComponent (lit ""))).
Proof. reflexivity. Qed.

(** ** The range of a component *)

Lemma parseComponent_success (component : gostring) (value bigval : Z) :
  parseComponent component = inl (value, bigval) ->
  value = fst (hardened_split (strings.TrimSpace component))
  /\ big.SetString (snd (hardened_split (strings.TrimSpace component))) 0
     = Some bigval
  /\ (value = 0 \/ value = 2147483648)
  /\ 0 <= bigval <= 4294967295 - value.
Proof.
  rewrite parseComponent_cases. cbv zeta.
  pose proof (hardened_split_offset (strings.TrimSpace component)) as Hoff.
  revert Hoff.
  generalize (fst (hardened_split (strings.TrimSpace component))).
  generalize (snd (hardened_split (strings.TrimSpace component))).
  intros text off Hoff.
  destruct (big.SetString text 0) as [v|]; [|discriminate].
  destruct (Z.ltb_spec v 0); [discriminate|].
  destruct (Z.ltb_spec (4294967295 - off) v); [discriminate|].
  cbn [orb]. intros E. injection E as <- <-.
  split; [reflexivity|]. split; [reflexivity|]. split; [exact Hoff|]. lia.
Qed.

Lemma parseComponent_out_of_range (component : gostring) (v mx : Z) (h : bool) :
  parseComponent component = inr (ComponentOutOfRange v mx h) ->
  let value := fst (hardened_split (strings.TrimSpace component)) in
  big.SetString (snd (hardened_split (strings.TrimSpace component))) 0 = Some v
  /\ mx = 4294967295 - value
  /\ h = negb (value =? 0)
  /\ (v < 0 \/ mx < v).
Proof.
  rewrite parseComponent_cases. cbv zeta.
  generalize (fst (hardened_split (strings.TrimSpace component))).
  generalize (snd (hardened_split (strings.TrimSpace component))).
  intros text off.
  destruct (big.SetString text 0) as [b|]; [|discriminate].
  remember (4294967295 - off) as m eqn:Hm.
  remember (negb (off =? 0)) as hh eqn:Hh.
  destruct (Z.ltb_spec b 0); destruct (Z.ltb_spec m b);
    cbn [orb]; intros E; try discriminate; injection E as <- <- <-;
    (split; [reflexivity|split; [reflexivity|split; [reflexivity|lia]]]).
Qed.

(** The components the loop has passed when it stops with an error: those
    before the failing one were accepted. *)
Lemma parse_loop_error (components : list gostring) (result r : DerivationPath)
    (err : PathError) :
  parse_loop components result = (r, Some err) ->
  r = []
  /\ exists pre component post,
       components = pre ++ component :: post
       /\ Forall (fun c => exists x, parseComponent c = inl x) pre
       /\ parseComponent component = inr err.
Proof.
  revert result. induction components as [|c components IH]; intros result H.
  - discriminate.
  - cbn [parse_loop] in H.
    destruct (parseComponent c) as [[value bigval]|e] eqn:E.
    + destruct (IH _ H) as (-> & pre & component & post & -> & Hpre & Herr).
      split; [reflexivity|].
      exists (c :: pre), component, post. repeat split; try assumption.
      constructor; [eauto|exact Hpre].
    + inversion H; subst. split; [reflexivity|].
      exists [], c, components. repeat split; [constructor|exact E].
Qed.

Lemma parse_loop_accepts (components : list gostring)
    (result r : DerivationPath) :
  parse_loop components result = (r, None) ->
  Forall (fun c => exists x, parseComponent c = inl x) components.
Proof.
  revert result. induction components as [|c components IH]; intros result H.
  - constructor.
  - cbn [parse_loop] in H.
    destruct (parseComponent c) as [[value bigval]|e] eqn:E; [|discriminate].
    constructor; [eauto|]. apply (IH _ H).
Qed.

(** Whatever [ParseDerivationPath] answers after the switch, it is the
    answer of the loop over the looped components. *)
Lemma Parse_runs_loop (path : gostring) (base : list DerivationPath)
    (r : DerivationPath) (o : option PathError) :
  ParseDerivationPath path base = (r, o) ->
  (o = None \/ exists v mx h, o = Some (ComponentOutOfRange v mx h)) ->
  exists result, parse_loop (looped_components path) result = (r, o).
Proof.
  unfold ParseDerivationPath, looped_components. cbv zeta.
  intros H Ho.
  assert (Hrem : forall components result,
             parse_remaining components result = (r, o) ->
             parse_loop components result = (r, o)).
  { intros components result. unfold parse_remaining.
    destruct (List.length components =? 0)%nat; [|trivial].
    intros E. inversion E; subst.
    destruct Ho as [Ho|(v & mx & h & Ho)]; discriminate. }
  destruct (switch_case _).
  - inversion H; subst. destruct Ho as [Ho|(v & mx & h & Ho)]; discriminate.
  - inversion H; subst. destruct Ho as [Ho|(v & mx & h & Ho)]; discriminate.
  - eauto.
  - destruct base as [|base0 rest].
    + inversion H; subst. destruct Ho as [Ho|(v & mx & h & Ho)]; discriminate.
    + eauto.
Qed.

(** C2, as the code has it: for every component of a path text that
    ParseDerivationPath accepts, the number read (before the offset is
    added) lies between 0 and 2^32 - 1 - offset, that is at most 2^31 - 1 for
    a hardened component and at most 2^32 - 1 for a plain one, so that the
    stored index offset + number never wraps around. *)
Theorem accepted_component_range (path : gostring)
    (base : list DerivationPath) (p : DerivationPath) :
  ParseDerivationPath path base = (p, None) ->
  Forall (fun component =>
            exists value bigval,
              parseComponent component = inl (value, bigval)
              /\ (value = 0 \/ value = 0x80000000)
              /\ 0 <= bigval <= 2 ^ 32 - 1 - value
              /\ (value = 0x80000000 -> bigval <= 2 ^ 31 - 1)
              /\ uint32 (value + uint32 (big.Uint64 bigval)) = value + bigval)
    (looped_components path).
Proof.
  intros H.
  destruct (Parse_runs_loop _ _ _ _ H (or_introl eq_refl)) as (result & Hloop).
  apply parse_loop_accepts in Hloop.
  eapply Forall_impl; [|exact Hloop].
  intros c [[value bigval] Hc]. exists value, bigval.
  destruct (parseComponent_success _ _ _ Hc) as (_ & _ & Hoff & Hr).
  split; [exact Hc|]. split; [exact Hoff|].
  split; [lia|]. split; [lia|].
  unfold big.Uint64, uint32. rewrite Z.abs_eq by lia.
  rewrite (Z.mod_small bigval (2 ^ 64)) by lia.
  rewrite (Z.mod_small bigval (2 ^ 32)) by lia.
  apply Z.mod_small. lia.
Qed.

Lemma accepted_component_range_witness :
  Forall (fun component =>
            exists value bigval,
              parseComponent component = inl (value, bigval)
              /\ (value = 0 \/ value = 0x80000000)
              /\ 0 <= bigval <= 2 ^ 32 - 1 - value
              /\ (value = 0x80000000 -> bigval <= 2 ^ 31 - 1)
              /\ uint32 (value + uint32 (big.Uint64 bigval)) = value + bigval)
    (looped_components (lit "m/44'/4294967295")).
Proof.
  apply (accepted_component_range (lit "m/44'/4294967295") []
           [0x8000002C; 0xFFFFFFFF]).
  reflexivity.
Defined.

(** C2, the counterexample: the plain component 2147483648 is accepted, its
    number exceeds 2^31 - 1 and the stored index has the hardened bit set. *)
Lemma plain_component_sets_hardened_bit :
  parseComponent (lit "2147483648") = inl (0, 2147483648)
  /\ 2 ^ 31 - 1 < 2147483648
  /\ ParseDerivationPath (lit "m/2147483648") [] = ([0x80000000], None)
  /\ Z.testbit 0x80000000 31 = true.
Proof. repeat split. Qed.

(** C4: for every component, the ceiling is max = 2^32 - 1 - offset
    (0xFFFFFFFF for a plain component, 0x7FFFFFFF for a hardened one), and
    the component fails with the ComponentOutOfRange error exactly when the
    integer read is negative or exceeds max; a parse that stops with that
    error stopped at the first component that is not accepted, which is out
    of range; [m/4294967296] and [m/2147483648'] fail that way. *)
Theorem range_enforcement (component : gostring) :
  let value := fst (hardened_split (strings.TrimSpace component)) in
  let text := snd (hardened_split (strings.TrimSpace component)) in
  let max := 2 ^ 32 - 1 - value in
  uint32 (MaxUint32 - value) = max
  /\ (value = 0 /\ max = 0xFFFFFFFF \/ value = 0x80000000 /\ max = 0x7FFFFFFF)
  /\ (forall bigval, big.SetString text 0 = Some bigval ->
        (parseComponent component
         = inr (ComponentOutOfRange bigval max (negb (value =? 0)))
         <-> bigval < 0 \/ max < bigval)
        /\ (parseComponent component = inl (value, bigval)
            <-> 0 <= bigval <= max))
  /\ (forall path base r v mx h,
        ParseDerivationPath path base = (r, Some (ComponentOutOfRange v mx h)) ->
        r = []
        /\ exists pre c post,
             looped_components path = pre ++ c :: post
             /\ Forall (fun c => exists x, parseComponent c = inl x) pre
             /\ big.SetString (snd (hardened_split (strings.TrimSpace c))) 0
                = Some v
             /\ mx = 2 ^ 32 - 1 - fst (hardened_split (strings.TrimSpace c))
             /\ (v < 0 \/ mx < v))
  /\ ParseDerivationPath (lit "m/4294967296") []
     = ([], Some (ComponentOutOfRange 4294967296 0xFFFFFFFF false))
  /\ ParseDerivationPath (lit "m/2147483648'") []
     = ([], Some (ComponentOutOfRange 2147483648 0x7FFFFFFF true)).
Proof.
  cbv zeta.
  pose proof (hardened_split_offset (strings.TrimSpace component)) as Hoff.
  split; [rewrite ceiling_eq by exact Hoff; lia|].
  split; [destruct Hoff as [-> | ->]; [left|right]; split; reflexivity|].
  split; [|split; [|split; reflexivity]].
  - intros bigval Hset. rewrite parseComponent_cases. cbv zeta. rewrite Hset.
    clear Hset. revert Hoff.
    generalize (fst (hardened_split (strings.TrimSpace component))).
    intros off Hoff.
    replace (2 ^ 32 - 1 - off) with (4294967295 - off) by lia.
    remember (4294967295 - off) as m eqn:Hm.
    remember (negb (off =? 0)) as hh eqn:Hh.
    destruct (Z.ltb_spec bigval 0); destruct (Z.ltb_spec m bigval);
      cbn [orb];
      (split; split; intros E; try reflexivity; try discriminate; lia).
  - intros path base r v mx h H.
    destruct (Parse_runs_loop _ _ _ _ H) as (result & Hloop); [eauto|].
    destruct (parse_loop_error _ _ _ _ Hloop) as (-> & pre & c & post & E & Hpre & Herr).
    split; [reflexivity|]. exists pre, c, post.
    destruct (parseComponent_out_of_range _ _ _ _ Herr) as (Hs & Hm & _ & Hv).
    split; [exact E|]. split; [exact Hpre|]. split; [exact Hs|].
    split; [lia|exact Hv].
Qed.

(** ** The base of a component *)


(** ** The JSON boundary *)

Lemma decimal_canonical (ds : gostring) (u : Z) :
  decimal_of ds u -> forallb canonical_byte ds = true.
Proof.
  intros (Hds & _). rewrite forallb_forall in Hds |- *. intros c Hc.
  pose proof (digit_in_10_code c (Hds c Hc)). unfold canonical_byte. cbv zeta.
  replace ((48 <=? code c) && (code c <=? 57)) with true by (zbool; reflexivity).
  apply orb_true_r.
Qed.

Lemma component_text_canonical (c : Z) :
  is_uint32 c -> forallb canonical_byte (component_text c) = true.
Proof.
  intros Hc. unfold is_uint32 in Hc. unfold component_text.
  destruct (Z.leb_spec 2147483648 c).
  - rewrite forallb_app.
    rewrite (decimal_canonical _ (uint32 (c - 2147483648))); [reflexivity|].
    apply fmt_d_decimal_of. unfold uint32. apply Z.mod_pos_bound. lia.
  - apply (decimal_canonical _ c), fmt_d_decimal_of. lia.
Qed.

(** The canonical text holds nothing that JSON escapes. *)
Lemma String_canonical (path : DerivationPath) :
  uint32_path path -> forallb canonical_byte (DerivationPath_String path) = true.
Proof.
  intros Hp. rewrite String_flat, forallb_app.
  change (forallb canonical_byte (lit "m")) with true. cbn [andb].
  induction Hp as [|c path Hc Hp IH]; [reflexivity|].
  cbn [flat_map app forallb].
  rewrite forallb_app, IH, component_text_canonical by exact Hc. reflexivity.
Qed.

Lemma canonical_plain (s : gostring) :
  forallb canonical_byte s = true -> forallb plain_json.plain_byte s = true.
Proof.
  rewrite !forallb_forall. intros H c Hc. specialize (H c Hc).
  unfold canonical_byte in H. unfold plain_json.plain_byte. cbv zeta in *.
  revert H. zbool.
Qed.

(** The codec of plain literals does what encoding/json does on canonical
    texts. *)
Lemma plain_json_quotes_canonical : json_quotes_canonical plain_json.codec.
Proof.
  intros s Hs. split; [reflexivity|].
  cbn [Unmarshal_string plain_json.codec]. unfold plain_json.Unmarshal.
  change (code quote_byte =? 34) with true.
  rewrite last_last, removelast_last, length_app.
  change (code quote_byte =? 34) with true.
  replace (1 <=? len s + len [quote_byte])%nat with true
    by (symmetry; apply Nat.leb_le; cbn; lia).
  cbn [andb]. rewrite (canonical_plain s Hs). reflexivity.
Qed.

(** C7, as the code has it: under a codec that treats canonical texts as
    encoding/json does, marshalling a path gives the JSON string of its
    canonical text, and for every non-empty path of uint32 values (so for
    everything a parse returns) unmarshalling that gives the path back;
    unmarshalling is parsing the decoded text with no base path, so a
    relative text fails there with the MissingBasePath error. *)
Theorem JSON_round_trip (J : JSONCodec) (path old : DerivationPath) :
  json_quotes_canonical J ->
  uint32_path path -> (1 <= List.length path)%nat ->
  DerivationPath_MarshalJSON J path
  = quote_byte :: DerivationPath_String path ++ [quote_byte]
  /\ DerivationPath_UnmarshalJSON J old (DerivationPath_MarshalJSON J path)
     = (path, None)
  /\ (forall b dp,
        Unmarshal_string J b = inl dp ->
        DerivationPath_UnmarshalJSON J old b
        = lift_parse (ParseDerivationPath dp [])
        /\ (switch_case (strings.Split dp (lit "/")) = Relative ->
            DerivationPath_UnmarshalJSON J old b
            = ([], Some (ParseError MissingBasePath))))
  /\ (forall b err,
        Unmarshal_string J b = inr err ->
        DerivationPath_UnmarshalJSON J old b = (old, Some (JSONError err))).
Proof.
  intros HJ Hp Hne.
  destruct (HJ _ (String_canonical path Hp)) as [Hm Hu].
  split; [exact Hm|]. split; [|split].
  - unfold DerivationPath_UnmarshalJSON, DerivationPath_MarshalJSON.
    rewrite Hm, Hu, Parse_String; [reflexivity|exact Hp|].
    destruct path; [cbn in Hne; lia|discriminate].
  - intros b dp Hb. unfold DerivationPath_UnmarshalJSON. rewrite Hb.
    split; [reflexivity|].
    intros Hrel. unfold ParseDerivationPath. cbv zeta. rewrite Hrel. reflexivity.
  - intros b err Hb. unfold DerivationPath_UnmarshalJSON. rewrite Hb. reflexivity.
Qed.

Lemma JSON_round_trip_witness :
  DerivationPath_UnmarshalJSON plain_json.codec []
    (DerivationPath_MarshalJSON plain_json.codec [0x8000002C; 0x8000003C; 7])
  = ([0x8000002C; 0x8000003C; 7], None).
Proof.
  apply (JSON_round_trip plain_json.codec [0x8000002C; 0x8000003C; 7] []).
  - exact plain_json_quotes_canonical.
  - repeat constructor; unfold is_uint32; lia.
  - cbn. lia.
Defined.

(** C7, the counterexample: the empty path marshals to the JSON string of
    [m], and unmarshalling that fails with the EmptyPath error. *)
Lemma JSON_empty_path_fails :
  DerivationPath_MarshalJSON plain_json.codec []
  = quote_byte :: lit "m" ++ [quote_byte]
  /\ DerivationPath_UnmarshalJSON plain_json.codec []
       (DerivationPath_MarshalJSON plain_json.codec [])
     = ([], Some (ParseError EmptyPath)).
Proof. split; reflexivity. Qed.

(** ** The key walk *)

Section KeyWalk.

Context {hdkey hderror : Type}.
Variable Child : hdkey -> Z -> hdkey + hderror.

(** The loop is the fold: same result, one call logged per step of the
    fold, on the indices of the path in order. *)
Lemma DeriveKey_loop_fold (path : DerivationPath) (key : ExtendedKey hdkey)
    (log : list (hdkey * Z)) (n : nat) :
  exists calls,
    DeriveKey_loop Child key path log
    = (wrap_key (fst (fold_fail_fast Child (embedded key) path n)), log ++ calls)
    /\ snd (fold_fail_fast Child (embedded key) path n) = (n + List.length calls)%nat
    /\ map snd calls = firstn (List.length calls) path.
Proof.
  revert key log n. induction path as [|i path IH]; intros key log n.
  - exists []. cbn. rewrite app_nil_r, Nat.add_0_r. destruct key; auto.
  - cbn [DeriveKey_loop fold_fail_fast]. unfold bind, ExtendedKey_Child.
    destruct (Child (embedded key) i) as [key'|err] eqn:E.
    + destruct (IH {| embedded := key' |} (log ++ [(embedded key, i)]) (S n))
        as (calls & Hrun & Hsteps & Hidx).
      exists ((embedded key, i) :: calls). cbn [embedded] in *.
      rewrite Hrun, <- app_assoc. repeat split.
      * rewrite Hsteps. cbn. lia.
      * cbn. rewrite Hidx. reflexivity.
    + exists [(embedded key, i)]. cbn. repeat split. f_equal. lia.
Qed.

End KeyWalk.

(** C3: DeriveKey is the fail-fast left fold of the single step Child over
    the indices in order.  Its result is the one of the fold, and it calls
    Child once per step of the fold, on the leading indices of the path; on
    the empty path it returns the master key and calls nothing; when the
    walk over a prefix succeeds and the next index fails, it returns that
    error after exactly (length of the prefix + 1) calls, whatever follows;
    when it succeeds it has called Child once for every index. *)
Theorem DeriveKey_fail_fast_fold {hdkey hderror : Type}
    (Child : hdkey -> Z -> hdkey + hderror) (master : ExtendedKey hdkey)
    (log : list (hdkey * Z)) :
  (forall path, exists calls,
      DeriveKey Child master path log
      = (wrap_key (fst (fold_fail_fast Child (embedded master) path 0)),
         log ++ calls)
      /\ List.length calls = snd (fold_fail_fast Child (embedded master) path 0)
      /\ map snd calls = firstn (List.length calls) path)
  /\ DeriveKey Child master [] log = (inl master, log)
  /\ (forall pre i post key log1 err,
        DeriveKey Child master pre log = (inl key, log1) ->
        Child (embedded key) i = inr err ->
        DeriveKey Child master (pre ++ i :: post) log
        = (inr err, log1 ++ [(embedded key, i)])
        /\ List.length (log1 ++ [(embedded key, i)])
           = (List.length log + List.length pre + 1)%nat)
  /\ (forall path key log',
        DeriveKey Child master path log = (inl key, log') ->
        exists calls, log' = log ++ calls /\ map snd calls = path).
Proof.
  assert (Hsucc : forall path key key' l l',
             DeriveKey_loop Child key path l = (inl key', l') ->
             exists calls, l' = l ++ calls /\ map snd calls = path).
  { induction path as [|i path IH]; intros key key' l l' H.
    - cbn in H. inversion H; subst. exists []. rewrite app_nil_r. auto.
    - cbn [DeriveKey_loop] in H. unfold bind, ExtendedKey_Child in H.
      destruct (Child (embedded key) i) as [k1|e]; [|discriminate].
      destruct (IH _ _ _ _ H) as (calls & -> & Hidx).
      exists ((embedded key, i) :: calls). rewrite <- app_assoc.
      split; [reflexivity|]. cbn. rewrite Hidx. reflexivity. }
  assert (Happ : forall pre key l key1 l1 rest,
             DeriveKey_loop Child key pre l = (inl key1, l1) ->
             DeriveKey_loop Child key (pre ++ rest) l
             = DeriveKey_loop Child key1 rest l1).
  { induction pre as [|i pre IH]; intros key l key1 l1 rest H.
    - cbn in H. inversion H; subst. reflexivity.
    - cbn [DeriveKey_loop app] in H |- *. unfold bind, ExtendedKey_Child in H |- *.
      destruct (Child (embedded key) i) as [k1|e]; [|discriminate].
      apply IH, H. }
  split; [|split; [|split]].
  - intros path.
    destruct (DeriveKey_loop_fold Child path master log 0) as (calls & H1 & H2 & H3).
    exists calls. split; [exact H1|]. split; [rewrite H2; reflexivity|exact H3].
  - reflexivity.
  - intros pre i post key log1 err Hpre Herr. unfold DeriveKey in *.
    rewrite (Happ _ _ _ _ _ _ Hpre). cbn [DeriveKey_loop].
    unfold bind, ExtendedKey_Child. rewrite Herr. split; [reflexivity|].
    destruct (Hsucc _ _ _ _ _ Hpre) as (calls & -> & Hidx).
    rewrite !length_app, <- Hidx, length_map. reflexivity.
  - intros path key log' H. apply (Hsucc _ _ _ _ _ H).
Qed.

Lemma DeriveKey_fail_fast_fold_witness :
  DeriveKey stub_Child {| embedded := 0%nat |} [0; 1; 2; 3; 4] []
  = (inr (lit "stub failure"), [(0%nat, 0); (1%nat, 1); (2%nat, 2)])
  /\ List.length [(0%nat, 0); (1%nat, 1); (2%nat, 2)] = 3%nat.
Proof.
  refine (proj1 (proj2 (proj2
            (DeriveKey_fail_fast_fold stub_Child {| embedded := 0%nat |} [])))
            [0; 1] 2 [3; 4] {| embedded := 2%nat |} [(0%nat, 0); (1%nat, 1)]
            (lit "stub failure") _ _).
  - reflexivity.
  - reflexivity.
Defined.

(** * Further properties of the parser *)

(** The loop body fails with one of two errors only. *)
Lemma parseComponent_error_kind (component : gostring) (err : PathError) :
  parseComponent component = inr err ->
  (exists text, err = InvalidComponent text)
  \/ (exists v mx h, err = ComponentOutOfRange v mx h).
Proof.
  rewrite parseComponent_cases. cbv zeta.
  generalize (fst (hardened_split (strings.TrimSpace component))).
  generalize (snd (hardened_split (strings.TrimSpace component))).
  intros text off.
  destruct (big.SetString text 0) as [b|].
  - remember (4294967295 - off) as m eqn:Hm.
    remember (negb (off =? 0)) as hh eqn:Hh.
    destruct ((b <? 0) || (m <? b)); intros E; [|discriminate].
    injection E as <-. right. eauto.
  - intros E. injection E as <-. left. eauto.
Qed.

(** The loop started on [result] appends what it appends when started on
    nothing. *)
Lemma parse_loop_shift (components : list gostring) (result : DerivationPath) :
  parse_loop components result
  = match parse_loop components [] with
    | (added, None) => (result ++ added, None)
    | (_, Some err) => ([], Some err)
    end.
Proof.
  revert result. induction components as [|c components IH]; intros result.
  - cbn. rewrite app_nil_r. reflexivity.
  - cbn [parse_loop]. destruct (parseComponent c) as [[value bigval]|err];
      [|reflexivity].
    rewrite (IH (result ++ _)), (IH ([] ++ _)).
    destruct (parse_loop components []) as [added [err|]]; [reflexivity|].
    rewrite <- app_assoc. reflexivity.
Qed.

Lemma parse_loop_nil_on_error (components : list gostring)
    (result r : DerivationPath) (err : PathError) :
  parse_loop components result = (r, Some err) -> r = [].
Proof. intros H. apply (parse_loop_error _ _ _ _ H). Qed.

(** The loop accepts the components one by one, and the indices it appends
    are theirs, in order. *)
Lemma parse_loop_indices (components : list gostring)
    (result p : DerivationPath) :
  parse_loop components result = (p, None)
  <-> exists added, p = result ++ added
        /\ Forall2 component_index components added.
Proof.
  revert result p. induction components as [|c components IH]; intros result p.
  - cbn. split.
    + intros H. injection H as <-. exists []. rewrite app_nil_r.
      split; [reflexivity|constructor].
    + intros (added & -> & H). inversion H. rewrite app_nil_r. reflexivity.
  - cbn [parse_loop]. split.
    + destruct (parseComponent c) as [[value bigval]|err] eqn:E; [|discriminate].
      intros H. apply IH in H. destruct H as (added & -> & Hall).
      destruct (parseComponent_success _ _ _ E) as (_ & _ & Hoff & Hr).
      exists (value + bigval :: added). rewrite <- app_assoc. split.
      * cbn [app]. do 2 f_equal. unfold big.Uint64, uint32.
        rewrite Z.abs_eq by lia.
        rewrite (Z.mod_small bigval (2 ^ 64)) by lia.
        rewrite (Z.mod_small bigval (2 ^ 32)) by lia.
        apply Z.mod_small. lia.
      * constructor; [|exact Hall]. exists value, bigval. auto.
    + intros (added & -> & Hall). inversion Hall as [|c' i cs' is' Hc Hrest]; subst.
      destruct Hc as (value & bigval & E & ->). rewrite E.
      destruct (parseComponent_success _ _ _ E) as (_ & _ & Hoff & Hr).
      apply IH. exists is'. split; [|exact Hrest].
      rewrite <- app_assoc. cbn [app]. do 2 f_equal.
      unfold big.Uint64, uint32. rewrite Z.abs_eq by lia.
      rewrite (Z.mod_small bigval (2 ^ 64)) by lia.
      rewrite (Z.mod_small bigval (2 ^ 32)) by lia.
      symmetry. apply Z.mod_small. lia.
Qed.

Lemma Parse_nil_or_indices (path : gostring) (base : list DerivationPath) :
  match snd (ParseDerivationPath path base) with
  | Some _ => fst (ParseDerivationPath path base) = []
  | None => (1 <= List.length (fst (ParseDerivationPath path base)))%nat
  end.
Proof.
  destruct (ParseDerivationPath path base) as [r [err|]] eqn:E; cbn [fst snd].
  - revert E. unfold ParseDerivationPath, parse_remaining. cbv zeta.
    destruct (switch_case _); try (intros E; injection E as <- _; reflexivity).
    + destruct (List.length _ =? 0)%nat;
        [intros E; injection E as <- _; reflexivity|].
      apply parse_loop_nil_on_error.
    + destruct base as [|base0 rest];
        [intros E; injection E as <- _; reflexivity|].
      destruct (List.length _ =? 0)%nat;
        [intros E; injection E as <- _; reflexivity|].
      apply parse_loop_nil_on_error.
  - destruct (Parse_success _ _ _ E) as (prefix & added & -> & Hne & _).
    rewrite length_app. destruct added; [contradiction|cbn; lia].
Qed.

(** X1: [ParseDerivationPath] never returns a partial path: with an error
    the path is nil, whatever the base path and however many components were
    accepted before the failing one, and without an error it holds at least
    one index. *)
Theorem Parse_path_xor_error (path : gostring) (base : list DerivationPath) :
  match snd (ParseDerivationPath path base) with
  | Some _ => fst (ParseDerivationPath path base) = []
  | None => (1 <= List.length (fst (ParseDerivationPath path base)))%nat
  end.
Proof. exact (Parse_nil_or_indices path base). Qed.

(** X2: a parse succeeds exactly when the path is absolute, or relative
    with a base, it has a component to loop over and every such component is
    accepted; its result is then the base (nothing for an absolute path)
    followed by the indices offset + number of the components, in order. *)
Theorem Parse_success_iff (path : gostring) (base : list DerivationPath)
    (p : DerivationPath) :
  ParseDerivationPath path base = (p, None)
  <-> exists prefix added,
        p = prefix ++ added
        /\ Forall2 component_index (looped_components path) added
        /\ looped_components path <> []
        /\ (switch_case (strings.Split path (lit "/")) = Absolute
              /\ prefix = []
            \/ switch_case (strings.Split path (lit "/")) = Relative
               /\ exists rest, base = prefix :: rest).
Proof.
  unfold ParseDerivationPath, looped_components, parse_remaining. cbv zeta.
  destruct (switch_case (strings.Split path (lit "/"))) eqn:Hcase.
  - split; [discriminate|].
    intros (prefix & added & _ & _ & _ & [[H _]|[H _]]); discriminate.
  - split; [discriminate|].
    intros (prefix & added & _ & _ & _ & [[H _]|[H _]]); discriminate.
  - destruct (tl (strings.Split path (lit "/"))) as [|c cs] eqn:Htl.
    + cbn. split; [discriminate|].
      intros (prefix & added & _ & _ & Hne & _). contradiction.
    + cbn [List.length Nat.eqb]. rewrite parse_loop_indices. split.
      * intros (added & -> & Hall). exists [], added.
        repeat split; try assumption; [discriminate|left; auto].
      * intros (prefix & added & -> & Hall & _ & [[_ ->]|[H _]]);
          [|discriminate].
        exists added. auto.
  - destruct base as [|base0 rest].
    + split; [discriminate|].
      intros (prefix & added & _ & _ & _ & [[H _]|[_ [rest H]]]); discriminate.
    + destruct (strings.Split path (lit "/")) as [|c cs] eqn:Hsp;
        [discriminate|].
      cbn [List.length Nat.eqb app]. rewrite parse_loop_indices. split.
      * intros (added & -> & Hall). exists base0, added.
        repeat split; try assumption; [discriminate|right; eauto].
      * intros (prefix & added & -> & Hall & _ & [[H _]|[_ [rest' H]]]);
          [discriminate|].
        injection H as -> _. exists added. auto.
Qed.

Lemma Split_m_slash (path : gostring) :
  strings.Split (lit "m/" ++ path) (lit "/")
  = lit "m" :: strings.Split path (lit "/").
Proof.
  cbn [strings.Split lit list_ascii_of_string app].
  rewrite split_loop_other_cons by discriminate.
  rewrite split_loop_slash_cons. reflexivity.
Qed.

(** X3: relative resolution.  A relative path resolves to the first base
    path followed by what the same text parses to behind an [m/]; its
    errors are those of that absolute text, and further base paths are
    never read. *)
Theorem Parse_relative_resolution (path : gostring) (base0 : DerivationPath)
    (rest : list DerivationPath) :
  switch_case (strings.Split path (lit "/")) = Relative ->
  ParseDerivationPath path (base0 :: rest)
  = match ParseDerivationPath (lit "m/" ++ path) [] with
    | (added, None) => (base0 ++ added, None)
    | (_, Some err) => ([], Some err)
    end.
Proof.
  intros Hrel. unfold ParseDerivationPath. cbv zeta.
  rewrite Hrel, Split_m_slash. cbn [switch_case tl].
  rewrite TrimSpace_m.
  change (gostring_eqb (lit "m") (lit "")) with false.
  change (gostring_eqb (lit "m") (lit "m")) with true. cbv iota.
  unfold parse_remaining.
  destruct (strings.Split path (lit "/")) as [|c cs]; [discriminate|].
  cbn [List.length Nat.eqb app]. apply parse_loop_shift.
Qed.

Lemma Parse_relative_resolution_witness :
  ParseDerivationPath (lit "0/7") [[0x8000002C; 0x8000003C]; [1]]
  = match ParseDerivationPath (lit "m/" ++ lit "0/7") [] with
    | (added, None) => ([0x8000002C; 0x8000003C] ++ added, None)
    | (_, Some err) => ([], Some err)
    end.
Proof.
  apply (Parse_relative_resolution (lit "0/7") [0x8000002C; 0x8000003C] [[1]]).
  vm_compute. reflexivity.
Defined.

(** X4: the parser stops at the first component that is not accepted and
    returns its error, whatever follows it. *)
Theorem Parse_first_failure (path : gostring) (base : list DerivationPath)
    (pre post : list gostring) (component : gostring) (err : PathError) :
  looped_components path = pre ++ component :: post ->
  Forall accepted pre ->
  parseComponent component = inr err ->
  switch_case (strings.Split path (lit "/")) = Absolute
  \/ (switch_case (strings.Split path (lit "/")) = Relative /\ base <> []) ->
  ParseDerivationPath path base = ([], Some err).
Proof.
  intros Hcs Hpre Herr Hcase.
  assert (Hloop : forall result,
             parse_loop (pre ++ component :: post) result = ([], Some err)).
  { clear Hcs. induction Hpre as [|c pre [[value bigval] Hc] Hpre IH];
      intros result.
    - cbn [app parse_loop]. rewrite Herr. reflexivity.
    - cbn [app parse_loop]. rewrite Hc. apply IH. }
  revert Hcs. unfold ParseDerivationPath, looped_components, parse_remaining.
  cbv zeta. destruct Hcase as [-> | [-> Hb]].
  - intros ->. rewrite length_app. cbn [List.length].
    replace (List.length pre + S (List.length post) =? 0)%nat with false
      by (symmetry; apply Nat.eqb_neq; lia).
    apply Hloop.
  - destruct base as [|base0 rest]; [contradiction|].
    intros ->. rewrite length_app. cbn [List.length].
    replace (List.length pre + S (List.length post) =? 0)%nat with false
      by (symmetry; apply Nat.eqb_neq; lia).
    apply Hloop.
Qed.

Lemma Parse_first_failure_witness :
  ParseDerivationPath (lit "m/44'/x/-1/99999999999") []
  = ([], Some (InvalidComponent (lit "x"))).
Proof.
  apply (Parse_first_failure (lit "m/44'/x/-1/99999999999") []
           [lit "44'"] [lit "-1"; lit "99999999999"] (lit "x")).
  - vm_compute. reflexivity.
  - constructor; [|constructor]. eexists. vm_compute. reflexivity.
  - vm_compute. reflexivity.
  - left. vm_compute. reflexivity.
Defined.

(** ** Which error, and when *)

Lemma parse_loop_error_kind (components : list gostring)
    (result r : DerivationPath) (err : PathError) :
  parse_loop components result = (r, Some err) ->
  (exists text, err = InvalidComponent text)
  \/ (exists v mx h, err = ComponentOutOfRange v mx h).
Proof.
  intros H.
  destruct (parse_loop_error _ _ _ _ H) as (_ & pre & c & post & _ & _ & Hc).
  apply (parseComponent_error_kind _ _ Hc).
Qed.

Lemma code_47 (c : ascii) : code c = 47 -> c = "/"%char.
Proof. intros H. apply code_inj. exact H. Qed.

(** A text splits into one component exactly when it holds no slash. *)
Lemma split_loop_single (s cur x : gostring) :
  strings.split_loop (lit "/") s cur 0 = [x]
  <-> no_slash s /\ x = rev cur ++ s.
Proof.
  split.
  - revert cur. induction s as [|c s IH]; intros cur H.
    + cbn in H. injection H as <-. rewrite app_nil_r. split; [constructor|reflexivity].
    + destruct (Z.eq_dec (code c) 47) as [E|E].
      * apply code_47 in E. subst c. rewrite split_loop_slash_cons in H.
        injection H as _ H. exfalso. apply (split_loop_nonempty _ _ _ _ H).
      * rewrite split_loop_other_cons in H by exact E.
        destruct (IH _ H) as [Hs ->]. split; [constructor; assumption|].
        cbn [rev]. rewrite <- app_assoc. reflexivity.
  - intros [Hs ->]. rewrite <- (app_nil_r s) at 1.
    rewrite split_loop_no_slash_app by exact Hs. cbn.
    rewrite rev_app_distr, rev_involutive. reflexivity.
Qed.

Lemma Split_single (path x : gostring) :
  strings.Split path (lit "/") = [x] <-> no_slash path /\ x = path.
Proof. apply (split_loop_single path [] x). Qed.

(** X5: the three errors of the path's shape.  EmptyPath is returned
    exactly for a text without slash that trims to [m]; AmbiguousPath
    exactly when the first component is blank; MissingBasePath exactly when
    the first component is neither blank nor [m] and no base path is given.
    The loop over the components returns none of them. *)
Theorem shape_errors (path : gostring) (base : list DerivationPath) :
  (snd (ParseDerivationPath path base) = Some EmptyPath
   <-> no_slash path /\ strings.TrimSpace path = lit "m")
  /\ (snd (ParseDerivationPath path base) = Some AmbiguousPath
      <-> strings.TrimSpace (hd [] (strings.Split path (lit "/"))) = [])
  /\ (snd (ParseDerivationPath path base) = Some MissingBasePath
      <-> base = []
          /\ strings.TrimSpace (hd [] (strings.Split path (lit "/"))) <> []
          /\ strings.TrimSpace (hd [] (strings.Split path (lit "/"))) <> lit "m").
Proof.
  assert (Hloop : forall components result err,
             snd (parse_loop components result) = Some err ->
             err <> EmptyPath /\ err <> AmbiguousPath /\ err <> MissingBasePath).
  { intros components result err H.
    destruct (parse_loop components result) as [r o] eqn:E. cbn in H. subst o.
    destruct (parse_loop_error_kind _ _ _ _ E) as [[t ->]|(v & mx & h & ->)];
      repeat split; discriminate. }
  assert (Hrem : forall components result err,
             snd (parse_remaining components result) = Some err ->
             (err = EmptyPath /\ components = [])
             \/ (err <> EmptyPath /\ err <> AmbiguousPath
                 /\ err <> MissingBasePath)).
  { intros components result err. unfold parse_remaining.
    destruct components as [|c cs]; cbn [List.length Nat.eqb].
    - cbn. intros H. injection H as <-. left. auto.
    - intros H. right. apply (Hloop _ _ _ H). }
  pose proof (split_loop_nonempty (lit "/") path [] 0) as Hne.
  change (strings.split_loop (lit "/") path [] 0)
    with (strings.Split path (lit "/")) in Hne.
  unfold ParseDerivationPath. cbv zeta.
  destruct (strings.Split path (lit "/")) as [|c0 cs] eqn:Hsp; [contradiction|].
  cbn [switch_case hd tl].
  destruct (gostring_eqb (strings.TrimSpace c0) (lit "")) eqn:E1.
  { apply gostring_eqb_eq in E1. cbn [snd]. split; [|split].
    - split; [discriminate|]. intros [Hs Hm].
      pose proof (proj2 (Split_single path path) (conj Hs eq_refl)) as Hp.
      rewrite Hsp in Hp. injection Hp as -> ->. rewrite Hm in E1. discriminate.
    - split; [intros _; exact E1|reflexivity].
    - split; [discriminate|]. intros (_ & H & _). contradiction. }
  assert (N1 : strings.TrimSpace c0 <> []).
  { intros H. apply gostring_eqb_eq in H. change (@nil ascii) with (lit "") in H.
    congruence. }
  destruct (gostring_eqb (strings.TrimSpace c0) (lit "m")) eqn:E2.
  { apply gostring_eqb_eq in E2. split; [|split].
    - split.
      + intros H. destruct (Hrem _ _ _ H) as [[_ Hcs]|[Hc _]]; [|contradiction].
        subst cs. apply Split_single in Hsp. destruct Hsp as [Hs ->]. auto.
      + intros [Hs Hm].
        pose proof (proj2 (Split_single path path) (conj Hs eq_refl)) as Hp.
        rewrite Hsp in Hp. injection Hp as -> ->. reflexivity.
    - split; [|intros H; contradiction].
      intros H. destruct (Hrem _ _ _ H) as [[Hc _]|(_ & Hc & _)];
        [discriminate|contradiction].
    - split; [|intros (_ & _ & H); contradiction].
      intros H. destruct (Hrem _ _ _ H) as [[Hc _]|(_ & _ & Hc)];
        [discriminate|contradiction]. }
  assert (N2 : strings.TrimSpace c0 <> lit "m").
  { intros H. apply gostring_eqb_eq in H. congruence. }
  destruct base as [|base0 rest]; cbn [snd].
  - split; [|split].
    + split; [discriminate|]. intros [Hs Hm].
      pose proof (proj2 (Split_single path path) (conj Hs eq_refl)) as Hp.
      rewrite Hsp in Hp. injection Hp as -> ->. contradiction.
    + split; [discriminate|intros H; contradiction].
    + split; auto.
  - split; [|split].
    + split.
      * intros H. destruct (Hrem _ _ _ H) as [[_ Hcs]|[Hc _]];
          [discriminate|contradiction].
      * intros [Hs Hm].
        pose proof (proj2 (Split_single path path) (conj Hs eq_refl)) as Hp.
        rewrite Hsp in Hp. injection Hp as -> ->. contradiction.
    + split; [|intros H; contradiction].
      intros H. destruct (Hrem _ _ _ H) as [[Hc _]|(_ & Hc & _)];
        [discriminate|contradiction].
    + split; [|intros (H & _); discriminate].
      intros H. destruct (Hrem _ _ _ H) as [[Hc _]|(_ & _ & Hc)];
        [discriminate|contradiction].
Qed.

(** ** White space around components *)






(** Trimming what is trimmed changes nothing. *)
Lemma TrimSpace_idempotent (s : gostring) :
  strings.TrimSpace (strings.TrimSpace s) = strings.TrimSpace s.
Proof.
  destruct (TrimSpace_trimmed s) as [Hl Hr].
  generalize dependent (strings.TrimSpace s). intros t Hl Hr.
  unfold strings.TrimSpace. cbv zeta.
  assert (E : strings.trimLeft (len t) t = t).
  { destruct t; [reflexivity|]. cbn [List.length strings.trimLeft].
    rewrite Hl. reflexivity. }
  rewrite E. destruct t; [reflexivity|]. cbn [List.length strings.trimRight].
  rewrite Hr. reflexivity.
Qed.




(** ** The canonical text, continued *)

Lemma component_text_shape (c : Z) :
  is_uint32 c ->
  strings.TrimSpace (component_text c) = component_text c
  /\ exists d r, component_text c = d :: r /\ 48 <= code d <= 57.
Proof.
  intros Hc. unfold is_uint32 in Hc. unfold component_text.
  destruct (Z.leb_spec 2147483648 c).
  - assert (Hdec : decimal_of (fmt.fmt_d (uint32 (c - 2147483648)))
                     (uint32 (c - 2147483648))).
    { apply fmt_d_decimal_of. unfold uint32. apply Z.mod_pos_bound. lia. }
    split; [apply (TrimSpace_decimal_hardened _ _ Hdec)|].
    destruct Hdec as (Hds & _ & Hne).
    destruct (fmt.fmt_d _) as [|d r]; [contradiction|].
    exists d, (r ++ lit "'"). split; [reflexivity|].
    apply digit_in_10_code. cbn [forallb] in Hds.
    apply andb_true_iff in Hds. apply Hds.
  - assert (Hdec : decimal_of (fmt.fmt_d c) c) by (apply fmt_d_decimal_of; lia).
    split; [apply (TrimSpace_decimal _ _ Hdec)|].
    destruct Hdec as (Hds & _ & Hne).
    destruct (fmt.fmt_d _) as [|d r]; [contradiction|].
    exists d, r. split; [reflexivity|].
    apply digit_in_10_code. cbn [forallb] in Hds.
    apply andb_true_iff in Hds. apply Hds.
Qed.

(** X7: the canonical text determines the path: two paths (of uint32
    values) with the same text are equal. *)
Theorem String_injective (p q : DerivationPath) :
  uint32_path p -> uint32_path q ->
  DerivationPath_String p = DerivationPath_String q -> p = q.
Proof.
  intros Hp Hq E.
  destruct p as [|a p], q as [|b q].
  - reflexivity.
  - pose proof (Parse_String (b :: q) [] Hq ltac:(discriminate)) as H.
    rewrite <- E in H. discriminate.
  - pose proof (Parse_String (a :: p) [] Hp ltac:(discriminate)) as H.
    rewrite E in H. discriminate.
  - pose proof (Parse_String (a :: p) [] Hp ltac:(discriminate)) as H1.
    pose proof (Parse_String (b :: q) [] Hq ltac:(discriminate)) as H2.
    rewrite E in H1. congruence.
Qed.

Lemma String_injective_witness : [0x8000002C; 7] = [0x8000002C; 7].
Proof.
  apply (String_injective [0x8000002C; 7] [0x8000002C; 7]).
  - repeat constructor; unfold is_uint32; lia.
  - repeat constructor; unfold is_uint32; lia.
  - reflexivity.
Defined.

(** X8: the canonical text of a concatenation is the text of the first
    path followed by the text of the second without its [m]; and the text
    of a non-empty path without its [m/], read as a relative path on the
    base [p], resolves to [p] followed by that path. *)
Theorem String_concatenation (p q : DerivationPath)
    (rest : list DerivationPath) :
  uint32_path q -> (1 <= List.length q)%nat ->
  DerivationPath_String (p ++ q)
  = DerivationPath_String p ++ skipn 1 (DerivationPath_String q)
  /\ ParseDerivationPath (skipn 2 (DerivationPath_String q)) (p :: rest)
     = (p ++ q, None).
Proof.
  intros Hq Hne. split.
  - rewrite !String_flat, flat_map_app, <- app_assoc. reflexivity.
  - destruct q as [|c q]; [cbn in Hne; lia|].
    rewrite String_flat. cbn [flat_map lit list_ascii_of_string app skipn].
    inversion Hq as [|c' q' Hc Hq']; subst.
    destruct (component_text_shape c Hc) as (Htrim & d & r & Hd & Hcode).
    unfold ParseDerivationPath. cbv zeta.
    assert (Hsp : strings.Split
                    (component_text c
                     ++ flat_map (fun c => "/"%char :: component_text c) q)
                    (lit "/")
                  = map component_text (c :: q)).
    { cbn [strings.Split lit list_ascii_of_string map].
      rewrite split_loop_no_slash_app by (apply component_text_no_slash, Hc).
      rewrite split_loop_flat by exact Hq'.
      rewrite app_nil_r, rev_involutive. reflexivity. }
    rewrite Hsp. cbn [map switch_case]. rewrite Htrim, Hd.
    replace (gostring_eqb (d :: r) (lit "")) with false
      by (unfold gostring_eqb; destruct (list_eq_dec _ _ _); [discriminate|reflexivity]).
    replace (gostring_eqb (d :: r) (lit "m")) with false.
    2:{ unfold gostring_eqb. destruct (list_eq_dec _ _ _) as [E|]; [|reflexivity].
        injection E as -> _. change (code "m"%char) with 109 in Hcode. lia. }
    rewrite <- Hd. unfold parse_remaining. cbn [List.length Nat.eqb app].
    change (component_text c :: map component_text q)
      with (map component_text (c :: q)).
    apply parse_loop_text. exact Hq.
Qed.

Lemma String_concatenation_witness :
  DerivationPath_String ([0x8000002C; 0x8000003C] ++ [0; 7])
  = DerivationPath_String [0x8000002C; 0x8000003C]
    ++ skipn 1 (DerivationPath_String [0; 7])
  /\ ParseDerivationPath (skipn 2 (DerivationPath_String [0; 7]))
       [[0x8000002C; 0x8000003C]]
     = ([0x8000002C; 0x8000003C] ++ [0; 7], None).
Proof.
  apply (String_concatenation [0x8000002C; 0x8000003C] [0; 7] []).
  - repeat constructor; unfold is_uint32; lia.
  - cbn. lia.
Defined.

Lemma component_text_bits (c : Z) :
  is_uint32 c -> component_text c = index_text c.
Proof.
  intros Hc. unfold is_uint32 in Hc. unfold component_text, index_text.
  change 0x7FFFFFFF with (Z.ones 31). rewrite Z.land_ones by lia.
  assert (Hbit : Z.testbit c 31 = (2147483648 <=? c)).
  { pose proof (Z.testbit_spec' c 31 ltac:(lia)) as H.
    change (2 ^ 31) with 2147483648 in H.
    destruct (Z.leb_spec 2147483648 c) as [Hge|Hlt].
    - assert (Hq : c / 2147483648 = 1)
        by (symmetry; apply (Z.div_unique c 2147483648 1 (c - 2147483648)); lia).
      rewrite Hq in H. destruct (Z.testbit c 31); [reflexivity|discriminate].
    - assert (Hq : c / 2147483648 = 0) by (apply Z.div_small; lia).
      rewrite Hq in H. destruct (Z.testbit c 31); [discriminate|reflexivity]. }
  rewrite Hbit. change (2 ^ 31) with 2147483648.
  destruct (Z.leb_spec 2147483648 c).
  - f_equal. f_equal. unfold uint32.
    rewrite (Z.mod_small (c - 2147483648)) by lia.
    apply Z.mod_unique with (q := 1); lia.
  - rewrite app_nil_r. f_equal. symmetry. apply Z.mod_small. lia.
Qed.

(** X9: what [String] writes.  The text of a path is [m] followed, for
    each index, by a slash, the decimal numeral of the low 31 bits of the
    index and an apostrophe exactly when bit 31 is set; it holds no byte
    other than [m], the slash, the apostrophe and decimal digits. *)
Theorem String_by_bits (p : DerivationPath) :
  uint32_path p ->
  DerivationPath_String p
  = lit "m" ++ flat_map (fun c => "/"%char :: index_text c) p
  /\ Forall (fun c => decimal_of (fmt.fmt_d (Z.land c 0x7FFFFFFF))
                        (Z.land c 0x7FFFFFFF)) p
  /\ forallb canonical_byte (DerivationPath_String p) = true.
Proof.
  intros Hp. split; [|split].
  - rewrite String_flat. f_equal.
    induction Hp as [|c p Hc Hp IH]; [reflexivity|].
    cbn [flat_map]. rewrite IH, (component_text_bits c Hc). reflexivity.
  - eapply Forall_impl; [|exact Hp]. intros c Hc.
    apply fmt_d_decimal_of. apply Z.land_nonneg. right. lia.
  - apply String_canonical, Hp.
Qed.

Lemma String_by_bits_witness :
  DerivationPath_String [0x8000002C; 0xFFFFFFFF; 5]
  = lit "m" ++ flat_map (fun c => "/"%char :: index_text c)
                 [0x8000002C; 0xFFFFFFFF; 5]
  /\ Forall (fun c => decimal_of (fmt.fmt_d (Z.land c 0x7FFFFFFF))
                        (Z.land c 0x7FFFFFFF)) [0x8000002C; 0xFFFFFFFF; 5]
  /\ forallb canonical_byte (DerivationPath_String [0x8000002C; 0xFFFFFFFF; 5])
     = true.
Proof.
  apply (String_by_bits [0x8000002C; 0xFFFFFFFF; 5]).
  repeat constructor; unfold is_uint32; lia.
Defined.

(** ** The walk and the JSON boundary, continued *)

(** X10: walking a concatenation is walking the first path and then, from
    the key it reaches and with the calls it made, the second; when the first
    walk fails the second path is never touched.  A path of one index is a
    single call of Child. *)
Theorem DeriveKey_concatenation {hdkey hderror : Type}
    (Child : hdkey -> Z -> hdkey + hderror) (master : ExtendedKey hdkey)
    (p q : DerivationPath) (log : list (hdkey * Z)) :
  DeriveKey Child master (p ++ q) log
  = match DeriveKey Child master p log with
    | (inl key, log1) => DeriveKey Child key q log1
    | (inr err, log1) => (inr err, log1)
    end
  /\ forall i, DeriveKey Child master [i] log = ExtendedKey_Child Child master i log.
Proof.
  split.
  - unfold DeriveKey. revert master log.
    induction p as [|i p IH]; intros master log.
    + reflexivity.
    + cbn [app DeriveKey_loop]. unfold bind, ExtendedKey_Child.
      destruct (Child (embedded master) i) as [key|err]; [apply IH|reflexivity].
  - intros i. unfold DeriveKey. cbn [DeriveKey_loop].
    unfold bind, ExtendedKey_Child, ret.
    destruct (Child (embedded master) i); reflexivity.
Qed.

(** X11: what [UnmarshalJSON] does to the path it is called on.  When the
    JSON text itself is refused the path is left as it was; once the text is
    decoded the old path plays no part: the path is overwritten by the parse
    result, which is nil whenever an error is returned. *)
Theorem UnmarshalJSON_receiver (J : JSONCodec) (old old' : DerivationPath)
    (b : gostring) :
  match Unmarshal_string J b with
  | inr err =>
      DerivationPath_UnmarshalJSON J old b = (old, Some (JSONError err))
  | inl dp =>
      DerivationPath_UnmarshalJSON J old b = DerivationPath_UnmarshalJSON J old' b
      /\ match snd (DerivationPath_UnmarshalJSON J old b) with
         | Some _ => fst (DerivationPath_UnmarshalJSON J old b) = []
         | None => (1 <= List.length (fst (DerivationPath_UnmarshalJSON J old b)))%nat
         end
  end.
Proof.
  unfold DerivationPath_UnmarshalJSON.
  destruct (Unmarshal_string J b) as [dp|err]; [|reflexivity].
  split; [reflexivity|].
  pose proof (Parse_nil_or_indices dp []) as H.
  unfold lift_parse. cbn [fst snd].
  destruct (snd (ParseDerivationPath dp [])); exact H.
Qed.

(** X12: the JSON boundary of keys.  When the codec reads back the text it
    writes for the key's serialized form, and the collaborator reads that
    form back as the key, unmarshalling the marshalled key gives the key,
    whatever the receiver held; and whenever [UnmarshalJSON] returns an
    error the receiver is left as it was. *)
Theorem ExtendedKey_JSON_round_trip {hdkey hderror : Type}
    (hdkeychain_NewKeyFromString : gostring -> hdkey + hderror)
    (hdkeychain_String : hdkey -> gostring)
    (J : JSONCodec) (k old : ExtendedKey hdkey) :
  Unmarshal_string J (Marshal_string J (hdkeychain_String (embedded k)))
  = inl (hdkeychain_String (embedded k)) ->
  hdkeychain_NewKeyFromString (hdkeychain_String (embedded k))
  = inl (embedded k) ->
  ExtendedKey_UnmarshalJSON hdkeychain_NewKeyFromString J old
    (ExtendedKey_MarshalJSON hdkeychain_String J k)
  = (k, None)
  /\ forall b err,
       snd (ExtendedKey_UnmarshalJSON hdkeychain_NewKeyFromString J old b)
       = Some err ->
       fst (ExtendedKey_UnmarshalJSON hdkeychain_NewKeyFromString J old b) = old.
Proof.
  intros HJ Hk. split.
  - unfold ExtendedKey_UnmarshalJSON, ExtendedKey_MarshalJSON, NewKeyFromString.
    rewrite HJ, Hk. destruct k. reflexivity.
  - intros b err. unfold ExtendedKey_UnmarshalJSON, NewKeyFromString.
    destruct (Unmarshal_string J b) as [s|e]; [|reflexivity].
    destruct (hdkeychain_NewKeyFromString s); [discriminate|reflexivity].
Qed.

Lemma ExtendedKey_JSON_round_trip_witness :
  ExtendedKey_UnmarshalJSON stub_NewKeyFromString plain_json.codec
    {| embedded := 0 |}
    (ExtendedKey_MarshalJSON stub_String plain_json.codec {| embedded := 12345 |})
  = ({| embedded := 12345 |}, None)
  /\ forall b err,
       snd (ExtendedKey_UnmarshalJSON stub_NewKeyFromString plain_json.codec
              {| embedded := 0 |} b) = Some err ->
       fst (ExtendedKey_UnmarshalJSON stub_NewKeyFromString plain_json.codec
              {| embedded := 0 |} b) = {| embedded := 0 |}.
Proof.
  apply (ExtendedKey_JSON_round_trip stub_NewKeyFromString stub_String
           plain_json.codec {| embedded := 12345 |} {| embedded := 0 |}).
  - vm_compute. reflexivity.
  - vm_compute. reflexivity.
Defined.

(** ** Hardened and plain components *)

Lemma spaceRunes_no_apostrophe (p : gostring) :
  In p strings.spaceRunes -> ~ In "'"%char p.
Proof.
  assert (H : forallb (fun p => forallb (fun c => negb (Ascii.eqb c "'"%char)) p)
                strings.spaceRunes = true) by (vm_compute; reflexivity).
  rewrite forallb_forall in H. intros Hp Hin. specialize (H p Hp).
  rewrite forallb_forall in H. specialize (H _ Hin).
  rewrite Ascii.eqb_refl in H. discriminate.
Qed.

Lemma leadingSpace_apostrophe (t : gostring) :
  strings.leadingSpace t = None ->
  strings.leadingSpace (t ++ lit "'") = None.
Proof.
  unfold strings.leadingSpace. intros H.
  destruct (find (strings.HasPrefix t) strings.spaceRunes) eqn:E; [discriminate|].
  rewrite find_none_forallb; [reflexivity|].
  apply forallb_forall. intros p Hp. apply negb_true_iff.
  destruct (strings.HasPrefix (t ++ lit "'") p) eqn:Hpre; [|reflexivity].
  exfalso. apply HasPrefix_iff in Hpre. destruct Hpre as [r Hr].
  destruct r as [|x r] using rev_ind.
  - rewrite app_nil_r in Hr. apply (spaceRunes_no_apostrophe p Hp).
    rewrite <- Hr. apply in_or_app. right. left. reflexivity.
  - rewrite app_assoc in Hr. apply app_inj_tail in Hr. destruct Hr as [Hr _].
    pose proof (find_none _ _ E p Hp) as Hno.
    assert (Hyes : strings.HasPrefix t p = true)
      by (apply HasPrefix_iff; eauto).
    congruence.
Qed.

Lemma TrimSpace_apostrophe (t : gostring) :
  strings.TrimSpace t = t ->
  strings.TrimSpace (t ++ lit "'") = t ++ lit "'".
Proof.
  intros Ht. destruct (TrimSpace_trimmed t) as [Hl _]. rewrite Ht in Hl.
  unfold strings.TrimSpace. cbv zeta.
  assert (E : strings.trimLeft (len (t ++ lit "'")) (t ++ lit "'") = t ++ lit "'").
  { rewrite length_app. change (len (lit "'")) with 1%nat.
    rewrite Nat.add_1_r. cbn [strings.trimLeft].
    rewrite (leadingSpace_apostrophe t Hl). reflexivity. }
  rewrite E. rewrite length_app. change (len (lit "'")) with 1%nat.
  rewrite Nat.add_1_r. cbn [strings.trimRight].
  change (lit "'") with ["'"%char].
  rewrite trailingSpace_graphic by reflexivity. reflexivity.
Qed.

(** X13: hardened and plain.  For a trimmed component text that is
    accepted as the plain number [v], the same text followed by an
    apostrophe is the hardened component of [v]: it is accepted with the
    offset 0x80000000 when [v] is at most 0x7FFFFFFF, and refused as out of
    the hardened range otherwise. *)
Theorem hardened_of_plain (t : gostring) (v : Z) :
  strings.TrimSpace t = t ->
  parseComponent t = inl (0, v) ->
  parseComponent (t ++ lit "'")
  = if v <=? 0x7FFFFFFF
    then inl (0x80000000, v)
    else inr (ComponentOutOfRange v 0x7FFFFFFF true).
Proof.
  intros Ht Hplain.
  destruct (parseComponent_success _ _ _ Hplain) as (Hoff & Hset & _ & Hr).
  rewrite Ht in Hoff, Hset.
  assert (Hsplit : hardened_split t = (0, t)).
  { revert Hoff. unfold hardened_split.
    destruct (strings.HasSuffix t (lit "'")); [discriminate|reflexivity]. }
  rewrite Hsplit in Hset. cbn [snd] in Hset.
  rewrite parseComponent_cases. cbv zeta.
  rewrite (TrimSpace_apostrophe t Ht).
  assert (Hh : hardened_split (t ++ lit "'") = (2147483648, t)).
  { unfold hardened_split. rewrite HasSuffix_app, TrimSuffix_app, Ht.
    reflexivity. }
  rewrite Hh. cbn [fst snd]. rewrite Hset.
  replace (v <? 0) with false by (symmetry; apply Z.ltb_ge; lia).
  cbn [orb]. change (4294967295 - 2147483648) with 2147483647.
  destruct (Z.leb_spec v 2147483647) as [Hle|Hgt].
  - replace (2147483647 <? v) with false by (symmetry; apply Z.ltb_ge; lia).
    reflexivity.
  - replace (2147483647 <? v) with true by (symmetry; apply Z.ltb_lt; lia).
    reflexivity.
Qed.

Lemma hardened_of_plain_witness :
  parseComponent (lit "0x2C" ++ lit "'")
  = if 44 <=? 0x7FFFFFFF
    then inl (0x80000000, 44)
    else inr (ComponentOutOfRange 44 0x7FFFFFFF true).
Proof.
  apply (hardened_of_plain (lit "0x2C") 44).
  - vm_compute. reflexivity.
  - vm_compute. reflexivity.
Defined.
